(** * The shader front end of ebiten: [internal/shader/shader.go]

    A shallow embedding of the declaration classifier ([NewShader], [parse],
    [parseVaryingStruct], [parsePackageLevelVariable],
    [parsePackageLevelConstant]) and of the [Dump] emitter, followed by the
    properties of the specification that concern them.

    Go strings are byte strings and are modelled by [string]; slices are
    lists; the map [f.Scope.Objects] is a [gmap string Object]; a run-time
    panic (a failed type assertion, an index out of range) is the outcome
    [Panic]. *)

From Stdlib Require Import Ascii.
From Stdlib Require String.
From stdpp Require Import base tactics option list sorting strings gmap.

Set Default Proof Using "Type*".

(** ** The parts of [go/token] and [go/ast] the classifier reads *)

Module token.

(** The kinds a [*ast.BasicLit] can have. *)
Inductive Token := INT | FLOAT | IMAG | CHAR | STRING.

#[global] Instance Token_eq_dec : EqDecision Token.
Proof. solve_decision. Defined.

(** [Token.String]: what the verb [%s] prints for a literal kind. *)
Definition Token_String (k : Token) : string :=
  match k with
  | INT => "INT" | FLOAT => "FLOAT" | IMAG => "IMAG"
  | CHAR => "CHAR" | STRING => "STRING"
  end.

End token.

Module ast.

Inductive ObjKind := Bad | Pkg | Con | Typ | Var | Fun | Lbl.

#[global] Instance ObjKind_eq_dec : EqDecision ObjKind.
Proof. solve_decision. Defined.

(** [ObjKind.String]. *)
Definition ObjKind_String (k : ObjKind) : string :=
  match k with
  | Bad => "bad" | Pkg => "package" | Con => "const" | Typ => "type"
  | Var => "var" | Fun => "func" | Lbl => "label"
  end.

(** [BasicLit.Value] is the literal as it is spelled in the source, a
    string literal with its quotes. *)
Record BasicLit := { Kind : token.Token; Value : string }.

(** An [ast.Expr] is an interface value: nil, one of the three node
    kinds the classifier inspects, or any other node. *)
Inductive Expr :=
| NilExpr
| Ident (Name : string)
| Lit (lit : BasicLit)
| StructType (Fields : list Field)
| OtherExpr (text : string)
with Field :=
| mkField (Names : list string) (Type_ : Expr) (Tag : option BasicLit).

Definition Names (f : Field) : list string := let (ns, _, _) := f in ns.
Definition Type_ (f : Field) : Expr := let (_, t, _) := f in t.
Definition Tag (f : Field) : option BasicLit := let (_, _, g) := f in g.

Record ValueSpec :=
  { vs_Names : list string; vs_Type : Expr; vs_Values : list Expr }.

(** [Object.Decl] is an [interface{}]: the classifier tells a
    [*ast.TypeSpec] and a [*ast.ValueSpec] from everything else. *)
Inductive Decl :=
| TypeSpec (Type_ : Expr)
| ValueSpecDecl (vs : ValueSpec)
| OtherDecl.

Record Object := { obj_Kind : ObjKind; obj_Name : string; obj_Decl : Decl }.

(** Of an [*ast.File] only [Scope.Objects] is read. *)
Record File := { Scope_Objects : gmap string Object }.

End ast.

Import ast.

(** ** Outcomes *)

Inductive Res (A : Type) :=
| Done (a : A)
| Panic.
Arguments Done {A} a.
Arguments Panic {A}.

Definition res_bind {A B} (r : Res A) (k : A → Res B) : Res B :=
  match r with
  | Done a => k a
  | Panic => Panic
  end.

Definition res_map {A B} (g : A → B) (r : Res A) : Res B :=
  res_bind r (λ a, Done (g a)).

(** ** The type system, which lives in a sibling file of the package *)

(** The file of the package that declares [typ], [typVec4], [typ.numeric],
    [typ.String] and [parseType] is not among the sources: the classifier is
    parametric in them.  [parseType] returns a type or the text of its error;
    [typ_zero] is the zero value of [typ], the type of the position of a
    fresh [Shader]. *)
Class TypeSystem := {
  typ : Type;
  typ_eq_dec :: EqDecision typ;
  typ_zero : typ;
  typVec4 : typ;
  numeric : typ → bool;
  typ_String : typ → string;
  parseType : Expr → typ + string;
}.

(** ** What Go leaves open: the order of [range] over a map, and [sort.Slice] *)

(** The iteration order over a map is not specified and may change from one
    run to the next: a run comes with an enumeration of each map. *)
Class MapRange := {
  range_order : gmap string Object → list (string * Object);
  range_order_perm : ∀ m, range_order m ≡ₚ map_to_list m;
}.

(** A comparison that [sort.Slice] can be used with. *)
Record StrictWeak {A} (less : A → A → bool) : Prop := {
  sw_irrefl : ∀ x, less x x = false;
  sw_trans : ∀ x y z, less x y = true → less y z = true → less x z = true;
  sw_incomp : ∀ x y z,
    less x y = false → less y z = false → less x z = false;
}.

(** [sort.Slice] by its documented contract: the slice is permuted so that
    no element is less than one before it; the sort is not guaranteed to be
    stable. *)
Class SliceSort := {
  sort_Slice : ∀ {A}, (A → A → bool) → list A → list A;
  sort_Slice_perm : ∀ A (less : A → A → bool) l, sort_Slice less l ≡ₚ l;
  sort_Slice_sorted : ∀ A (less : A → A → bool) l,
    StrictWeak less → Sorted (λ x y, less y x = false) (sort_Slice less l);
}.

(** ** Strings *)

Definition dquote : string := String "034" "".
Definition newline : string := String "010" "".

(** [strings.Join]. *)
Fixpoint Join (elems : list string) (sep : string) : string :=
  match elems with
  | [] => ""
  | [e] => e
  | e :: rest => e +:+ sep +:+ Join rest sep
  end.

Fixpoint strip_prefix (p s : string) : option string :=
  match p, s with
  | "", _ => Some s
  | String a p', String b s' => if decide (a = b) then strip_prefix p' s' else None
  | String _ _, "" => None
  end.

Fixpoint strip_suffix (q s : string) : option string :=
  if decide (s = q) then Some ""
  else match s with
       | "" => None
       | String a s' => String a <$> strip_suffix q s'
       end.

Fixpoint has_newline (s : string) : bool :=
  match s with
  | "" => false
  | String a s' => if decide (a = "010"%char) then true else has_newline s'
  end.

Definition varyingStructName : string := "VertexOut".

Definition kageTag_open : string := "`kage:" +:+ dquote.
Definition kageTag_close : string := dquote +:+ "`".

(** [kageTagRe.FindStringSubmatch(tag)], reduced to the submatch [m[1]].
    The expression is anchored at both ends around one group [(.+)]: the text
    matches when it opens with a backquote, [kage:] and a double quote,
    closes with a double quote and a backquote, and what lies between is not
    empty and has no line feed (which [.] does not match); the group is then
    all that lies between. *)
Definition kageTagRe (tag : string) : option string :=
  rest ← strip_prefix kageTag_open tag;
  m1 ← strip_suffix kageTag_close rest;
  if decide (m1 = "") then None
  else if has_newline m1 then None else Some m1.

(** ** The model *)

Section shader.
Context `{TS : TypeSystem}.

Record variable := {
  var_name : string;
  var_typ : typ;
  var_constant : bool;
  var_init : string;
}.

Record Shader := {
  position : variable;
  varyings : list variable;
  uniforms : list variable;
  globals : list variable;
  errs : list string;
}.

Record ParseError := { pe_errs : list string }.

(** [ParseError.Error]. *)
Definition ParseError_Error (p : ParseError) : string :=
  Join (pe_errs p) newline.

(** The [error] values [NewShader] returns: the parser's own, or a
    [*ParseError]. *)
Inductive error :=
| SyntaxError (msg : string)
| SemanticError (p : ParseError).

(** The zero values [variable{}] and [Shader{}]. *)
Definition variable_zero : variable :=
  {| var_name := ""; var_typ := typ_zero; var_constant := false; var_init := "" |}.

Definition Shader_zero : Shader :=
  {| position := variable_zero; varyings := []; uniforms := [];
     globals := []; errs := [] |}.

Definition addError (str : string) (s : Shader) : Shader :=
  {| position := position s; varyings := varyings s; uniforms := uniforms s;
     globals := globals s; errs := errs s ++ [str] |}.

Definition set_position (v : variable) (s : Shader) : Shader :=
  {| position := v; varyings := varyings s; uniforms := uniforms s;
     globals := globals s; errs := errs s |}.

Definition append_varying (v : variable) (s : Shader) : Shader :=
  {| position := position s; varyings := varyings s ++ [v];
     uniforms := uniforms s; globals := globals s; errs := errs s |}.

Definition append_uniform (v : variable) (s : Shader) : Shader :=
  {| position := position s; varyings := varyings s;
     uniforms := uniforms s ++ [v]; globals := globals s; errs := errs s |}.

Definition append_global (v : variable) (s : Shader) : Shader :=
  {| position := position s; varyings := varyings s; uniforms := uniforms s;
     globals := globals s ++ [v]; errs := errs s |}.

(** A variable as [variable{name: n, typ: t}] builds it. *)
Definition plain_variable (n : string) (t : typ) : variable :=
  {| var_name := n; var_typ := t; var_constant := false; var_init := "" |}.

(** One turn of the loop over [s.Fields.List] in [parseVaryingStruct]. *)
Definition parseVaryingField (f : Field) (sh : Shader) : Shader :=
  match Tag f with
  | Some tag =>
      match kageTagRe (Value tag) with
      | None => addError ("invalid struct tag: " +:+ Value tag) sh
      | Some m1 =>
          if decide (m1 ≠ "position") then
            addError ("struct tag value must be position in "
                        +:+ varyingStructName +:+ " but " +:+ m1) sh
          else
            match Names f with
            | [n] =>
                match parseType (Type_ f) with
                | inr err => addError err sh
                | inl t =>
                    if decide (t ≠ typVec4) then
                      addError ("position must be vec4 but " +:+ typ_String t) sh
                    else set_position (plain_variable n t) sh
                end
            | _ => addError "position members must be one" sh
            end
      end
  | None =>
      match parseType (Type_ f) with
      | inr err => addError err sh
      | inl t =>
          if negb (numeric t) then
            addError ("members in " +:+ varyingStructName
                        +:+ " must be numeric but " +:+ typ_String t) sh
          else
            foldl (λ sh' n, append_varying (plain_variable n t) sh') sh (Names f)
      end
  end.

Definition parseVaryingStruct (obj : Object) (sh : Shader) : Res Shader :=
  let name := obj_Name obj in
  if decide (obj_Kind obj ≠ Typ) then
    Done (addError (name +:+ " must be a type but "
                      +:+ ObjKind_String (obj_Kind obj)) sh)
  else
    match obj_Decl obj with
    | TypeSpec t =>
        match t with
        | StructType fields =>
            Done (foldl (λ sh' f, parseVaryingField f sh') sh fields)
        | _ => Done (addError (name +:+ " must be a struct but not") sh)
        end
    | _ => Panic
    end.

Definition parsePackageLevelVariable (name : string) (obj : Object)
    (s : Shader) : Res Shader :=
  match obj_Decl obj with
  | ValueSpecDecl v =>
      match parseType (vs_Type v) with
      | inr err => Done (addError err s)
      | inl t =>
          let val := plain_variable name t in
          match name with
          | "" => Panic
          | String c _ =>
              if Ascii.leb "A" c && Ascii.leb c "Z" then
                Done (append_uniform val s)
              else
                Done (append_global val s)
          end
      end
  | _ => Done (addError "value spec expected" s)
  end.

(** The loop [for i, v := range vs.Values] of [parsePackageLevelConstant],
    from index [i] on; [values] is what is left of [vs.Values].  A literal
    of another kind ends the whole method, not the turn. *)
Fixpoint constantValues (name : string) (t : typ) (names : list string)
    (i : nat) (values : list Expr) (s : Shader) : Res Shader :=
  match values with
  | [] => Done s
  | v :: rest =>
      match names !! i with
      | None => Panic
      | Some n =>
          if decide (n ≠ name) then constantValues name t names (S i) rest s
          else
            let append init :=
              constantValues name t names (S i) rest
                (append_global {| var_name := name; var_typ := t;
                                  var_constant := true; var_init := init |} s) in
            match v with
            | Lit b =>
                if decide (Kind b ≠ token.INT ∧ Kind b ≠ token.FLOAT) then
                  Done (addError ("literal must be int or float but "
                                    +:+ token.Token_String (Kind b)) s)
                else append (Value b)
            | _ => append ""
            end
      end
  end.

Definition parsePackageLevelConstant (name : string) (obj : Object)
    (s : Shader) : Res Shader :=
  match obj_Decl obj with
  | ValueSpecDecl vs =>
      match parseType (vs_Type vs) with
      | inr err => Done (addError err s)
      | inl t => constantValues name t (vs_Names vs) 0 (vs_Values vs) s
      end
  | _ => Done (addError "value spec expected" s)
  end.

(** The body of the loop of [parse], for one entry of the map. *)
Definition parseObject (entry : string * Object) (s : Shader) : Res Shader :=
  let (name, obj) := entry in
  if decide (name = varyingStructName) then parseVaryingStruct obj s
  else
    match obj_Kind obj with
    | Con => parsePackageLevelConstant name obj s
    | Var => parsePackageLevelVariable name obj s
    | _ => Done s
    end.

(** The loop of [parse] over the entries in the order they come. *)
Fixpoint parse_entries (entries : list (string * Object)) (s : Shader)
    : Res Shader :=
  match entries with
  | [] => Done s
  | e :: rest => res_bind (parseObject e s) (parse_entries rest)
  end.

Definition name_less (a b : variable) : bool :=
  String.ltb (var_name a) (var_name b).

Section run.
Context `{MR : MapRange} `{SS : SliceSort}.

Definition parse (f : File) (s : Shader) : Res Shader :=
  parse_entries (range_order (Scope_Objects f)) s.

(** The three calls of [sort.Slice] at the end of [NewShader]. *)
Definition sort_groups (s : Shader) : Shader :=
  {| position := position s;
     varyings := sort_Slice name_less (varyings s);
     uniforms := sort_Slice name_less (uniforms s);
     globals := sort_Slice name_less (globals s);
     errs := errs s |}.

(** [NewShader] after the walk. *)
Definition NewShader_result (s : Shader) : Shader + error :=
  if decide (0 < length (errs s)) then inr (SemanticError {| pe_errs := errs s |})
  else inl (sort_groups s).

(** [NewShader(src)]: [src] is read by [parser.ParseFile] only, whose
    outcome, a syntax tree or the parser's error, is the argument. *)
Definition NewShader (parsed : File + string) : Res (Shader + error) :=
  match parsed with
  | inr err => Done (inr (SyntaxError err))
  | inl f => res_map NewShader_result (parse f Shader_zero)
  end.
End run.

(** One line of [Dump] for a global. *)
Definition Dump_global (g : variable) : string :=
  let prefix := if var_constant g then "const" else "var" in
  let init := if decide (var_init g ≠ "") then " = " +:+ var_init g else "" in
  prefix +:+ " " +:+ var_name g +:+ " " +:+ typ_String (var_typ g) +:+ init.

Definition Dump_lines (s : Shader) : list string :=
  ["var " +:+ var_name (position s) +:+ " varying "
     +:+ typ_String (var_typ (position s)) +:+ " // position"]
  ++ ((λ v, "var " +:+ var_name v +:+ " varying " +:+ typ_String (var_typ v))
        <$> varyings s)
  ++ ((λ u, "var " +:+ var_name u +:+ " uniform " +:+ typ_String (var_typ u))
        <$> uniforms s)
  ++ (Dump_global <$> globals s).

Definition Dump (s : Shader) : string :=
  Join (Dump_lines s) newline +:+ newline.

End shader.


(** ** What one declaration contributes *)

Section contributions.
Context `{TS : TypeSystem}.

(** A field of the struct that passes every check of the position branch: a
    tag of the recognised form whose value is [position], one name, and the
    type [vec4]. *)
Definition is_position_field (f : Field) : bool :=
  match Tag f with
  | Some tag =>
      bool_decide (kageTagRe (Value tag) = Some "position")
      && bool_decide (length (Names f) = 1)
      && bool_decide (parseType (Type_ f) = inl typVec4)
  | None => false
  end.

(** The position such a field stands for. *)
Definition position_of (f : Field) : variable :=
  plain_variable (default "" (head (Names f))) typVec4.

(** What a part of the walk adds to the state: a new position or none, and
    the variables and diagnostics it appends. *)
Record effect := {
  e_position : option variable;
  e_varyings : list variable;
  e_uniforms : list variable;
  e_globals : list variable;
  e_errs : list string;
}.

Definition apply_effect (d : effect) (s : Shader) : Shader :=
  {| position := default (position s) (e_position d);
     varyings := varyings s ++ e_varyings d;
     uniforms := uniforms s ++ e_uniforms d;
     globals := globals s ++ e_globals d;
     errs := errs s ++ e_errs d |}.

Definition effect_none : effect :=
  {| e_position := None; e_varyings := []; e_uniforms := []; e_globals := [];
     e_errs := [] |}.

Definition effect_seq (d1 d2 : effect) : effect :=
  {| e_position := match e_position d2 with
                   | Some v => Some v
                   | None => e_position d1
                   end;
     e_varyings := e_varyings d1 ++ e_varyings d2;
     e_uniforms := e_uniforms d1 ++ e_uniforms d2;
     e_globals := e_globals d1 ++ e_globals d2;
     e_errs := e_errs d1 ++ e_errs d2 |}.

Definition field_position (f : Field) : option variable :=
  if is_position_field f then Some (position_of f) else None.

(** The effect of one field, read off a run on the empty state. *)
Definition field_effect (f : Field) : effect :=
  {| e_position := field_position f;
     e_varyings := varyings (parseVaryingField f Shader_zero);
     e_uniforms := [];
     e_globals := [];
     e_errs := errs (parseVaryingField f Shader_zero) |}.

Definition fields_effect (fs : list Field) : effect :=
  foldl (λ d f, effect_seq d (field_effect f)) effect_none fs.

(** Two states that differ in the order of their lists only. *)
Definition shader_equiv (s1 s2 : Shader) : Prop :=
  position s1 = position s2
  ∧ varyings s1 ≡ₚ varyings s2
  ∧ uniforms s1 ≡ₚ uniforms s2
  ∧ globals s1 ≡ₚ globals s2
  ∧ errs s1 ≡ₚ errs s2.

(** An action whose outcome on every state is the same panic or the same
    effect. *)
Definition has_effect (a : Shader → Res Shader) (r : Res effect) : Prop :=
  ∀ s, a s = res_map (λ d, apply_effect d s) r.

Definition res_equiv (r1 r2 : Res Shader) : Prop :=
  match r1, r2 with
  | Done s1, Done s2 => shader_equiv s1 s2
  | Panic, Panic => True
  | _, _ => False
  end.

(** The diagnostics of one entry of the map, read off a run on the empty
    state. *)
Definition entry_errs (e : string * Object) : list string :=
  match parseObject e Shader_zero with
  | Done d => errs d
  | Panic => []
  end.

(** An effect that touches neither the position nor the varyings. *)
Definition package_level (r : Res effect) : Prop :=
  ∀ d, r = Done d → e_position d = None ∧ e_varyings d = [].

(** An effect whose position, if any, is a plain variable of type [vec4]. *)
Definition vec4_position (r : Res effect) : Prop :=
  ∀ d v, r = Done d → e_position d = Some v →
         v = plain_variable (var_name v) typVec4.

(** The fields of the struct in another order, the tagged ones keeping
    theirs. *)
Definition fields_reordered (fs1 fs2 : list Field) : Prop :=
  fs1 ≡ₚ fs2
  ∧ filter (λ f, is_Some (Tag f)) fs1 = filter (λ f, is_Some (Tag f)) fs2.

(** Two trees whose maps hold the same objects, the fields of the struct
    in another order at most. *)
Definition same_objects (f1 f2 : File) : Prop :=
  f1 = f2
  ∨ ∃ k n fs1 fs2,
      Scope_Objects f1 !! varyingStructName
        = Some {| obj_Kind := k; obj_Name := n;
                  obj_Decl := TypeSpec (StructType fs1) |}
      ∧ Scope_Objects f2
        = <[varyingStructName :=
              {| obj_Kind := k; obj_Name := n;
                 obj_Decl := TypeSpec (StructType fs2) |}]> (Scope_Objects f1)
      ∧ fields_reordered fs1 fs2.

(** [ast.Scope.Insert] of the standard library: an object enters the scope
    under its name, unless the scope holds that name already, which then
    keeps the object it has. *)
Definition Scope_Insert (scope : gmap string Object) (obj : Object)
    : gmap string Object :=
  match scope !! obj_Name obj with
  | Some _ => scope
  | None => <[obj_Name obj := obj]> scope
  end.

(** What [go/parser] does with the object of every name that a declaration
    of the package level binds: every name but the blank one is inserted
    into the scope of the package.  [NewShader] parses with
    [parser.AllErrors] only, without [parser.DeclarationErrors], so that
    declaring a name again is no error of the parser: the first declaration
    of the source stays in the map. *)
Definition declare (scope : gmap string Object) (obj : Object)
    : gmap string Object :=
  if decide (obj_Name obj = "_") then scope else Scope_Insert scope obj.

(** The tree of a source, from the objects that its package-level
    declarations bind, in the order of the source. *)
Definition scope_of (objs : list Object) : File :=
  {| Scope_Objects := foldl declare ∅ objs |}.


(** A declaration, and the same declaration with the fields of the struct in
    another order. *)
Definition declaration_reordered (o1 o2 : Object) : Prop :=
  o1 = o2
  ∨ ∃ k fs1 fs2,
      o1 = {| obj_Kind := k; obj_Name := varyingStructName;
              obj_Decl := TypeSpec (StructType fs1) |}
      ∧ o2 = {| obj_Kind := k; obj_Name := varyingStructName;
                obj_Decl := TypeSpec (StructType fs2) |}
      ∧ fields_reordered fs1 fs2.

(** The declarations of a source in another order: the package-level
    declarations are permuted, and so are the fields of the struct, the
    tagged ones keeping their order. *)
Definition reordered (objs1 objs2 : list Object) : Prop :=
  ∃ mid, objs1 ≡ₚ mid ∧ Forall2 declaration_reordered mid objs2.

(** No two varyings and no two globals have the same name.  (The uniforms
    never do: each comes from its own key of the map.) *)
Definition distinct_names (s : Shader) : Prop :=
  NoDup (var_name <$> varyings s) ∧ NoDup (var_name <$> globals s).

(** A group is in ascending order of names. *)
Definition sorted_by_name (l : list variable) : Prop :=
  Sorted (λ a b, String.le (var_name a) (var_name b)) l.

(** Two outcomes of [NewShader] that agree up to what the order of the walk
    leaves open: the same panic, the same syntax error, the same diagnostics
    in some order, or models with the same position and the same variables,
    which are one model when no two varyings and no two globals have the
    same name. *)
Definition same_outcome (r1 r2 : Res (Shader + error)) : Prop :=
  match r1, r2 with
  | Panic, Panic => True
  | Done (inl m1), Done (inl m2) =>
      shader_equiv m1 m2 ∧ (distinct_names m1 → m1 = m2)
  | Done (inr (SyntaxError e1)), Done (inr (SyntaxError e2)) => e1 = e2
  | Done (inr (SemanticError p1)), Done (inr (SemanticError p2)) =>
      pe_errs p1 ≡ₚ pe_errs p2
  | _, _ => False
  end.

(** What keeps the walk from a panic on an entry of the map: the object of
    the struct, when it is a type, is declared by a type specification, as
    the parser has it; a constant has no more values than names; the name of
    a variable is not empty. *)
Definition well_formed_entry (name : string) (obj : Object) : bool :=
  if decide (name = varyingStructName) then
    match obj_Kind obj, obj_Decl obj with
    | Typ, TypeSpec _ => true
    | Typ, _ => false
    | _, _ => true
    end
  else
    match obj_Kind obj, obj_Decl obj with
    | Con, ValueSpecDecl vs =>
        bool_decide (length (vs_Values vs) ≤ length (vs_Names vs))
    | Var, _ => bool_decide (name ≠ "")
    | _, _ => true
    end.

Definition well_formed (f : File) : Prop :=
  map_Forall (λ name obj, well_formed_entry name obj = true) (Scope_Objects f).

(** The upper-case letters of ASCII. *)
Definition upper_letters : list ascii :=
  String.list_ascii_of_string "ABCDEFGHIJKLMNOPQRSTUVWXYZ".

Definition lower_letters : list ascii :=
  String.list_ascii_of_string "abcdefghijklmnopqrstuvwxyz".

(** What [parsePackageLevelConstant] makes of one value bound to the name. *)
Definition constant_of (name : string) (t : typ) (init : string) : variable :=
  {| var_name := name; var_typ := t; var_constant := true; var_init := init |}.

(** The lines of the dump as the specification words them: the position and
    the varyings as [var <name> varying <type>], the uniforms as
    [var <name> uniform <type>], a global as [var <name> <type>] or as
    [const <name> <type> = <initializer>]. *)
Definition Dump_lines_spec (s : Shader) : list string :=
  ["var " +:+ var_name (position s) +:+ " varying "
     +:+ typ_String (var_typ (position s))]
  ++ ((λ v, "var " +:+ var_name v +:+ " varying " +:+ typ_String (var_typ v))
        <$> varyings s)
  ++ ((λ u, "var " +:+ var_name u +:+ " uniform " +:+ typ_String (var_typ u))
        <$> uniforms s)
  ++ ((λ g, if var_constant g then
              "const " +:+ var_name g +:+ " " +:+ typ_String (var_typ g)
                +:+ " = " +:+ var_init g
            else "var " +:+ var_name g +:+ " " +:+ typ_String (var_typ g))
        <$> globals s).

Definition Dump_spec (s : Shader) : string :=
  Join (Dump_lines_spec s) newline +:+ newline.

(** The same with the two amendments: the line of the position ends in the
    comment [// position], and a constant whose initializer was not captured
    has no [=] part. *)
Definition global_line (g : variable) : string :=
  if var_constant g then
    if decide (var_init g = "") then
      "const " +:+ var_name g +:+ " " +:+ typ_String (var_typ g)
    else
      "const " +:+ var_name g +:+ " " +:+ typ_String (var_typ g)
        +:+ " = " +:+ var_init g
  else "var " +:+ var_name g +:+ " " +:+ typ_String (var_typ g).

Definition Dump_lines_amended (s : Shader) : list string :=
  ["var " +:+ var_name (position s) +:+ " varying "
     +:+ typ_String (var_typ (position s)) +:+ " // position"]
  ++ ((λ v, "var " +:+ var_name v +:+ " varying " +:+ typ_String (var_typ v))
        <$> varyings s)
  ++ ((λ u, "var " +:+ var_name u +:+ " uniform " +:+ typ_String (var_typ u))
        <$> uniforms s)
  ++ (global_line <$> globals s).

(** A global that is not a constant has no initializer. *)
Definition plain_global (g : variable) : Prop :=
  var_constant g = false → var_init g = "".

End contributions.


(** ** [sort.Slice] on a short slice *)

(** The inner loop of [insertionSort_func]: the new element moves left past
    every element it is less than.  [sorted_rev] is the part of the slice
    already sorted, last element first. *)
Fixpoint insert_left {A} (less : A → A → bool) (x : A) (sorted_rev : list A)
    : list A :=
  match sorted_rev with
  | [] => [x]
  | y :: r => if less x y then y :: insert_left less x r else x :: sorted_rev
  end.

(** [insertionSort_func], which is all [sort.Slice] runs on a slice of at most
    six elements. *)
Definition insertionSort {A} (less : A → A → bool) (l : list A) : list A :=
  reverse (foldl (λ acc x, insert_left less x acc) [] l).

(** ** A type system to run the classifier on *)

Module kage.

(** Modelled from the spec: the closed enumeration of section 3 (float, int,
    boolean, the float vectors and the square float matrices), each with its
    canonical name; every type is numeric but the boolean; the resolver
    recognises the names of these types and answers anything else with
    [unexpected type: ...]. The zero value is taken to be the first type. *)
Inductive typ := Float | Int | Bool | Vec2 | Vec3 | Vec4 | Mat2 | Mat3 | Mat4.

#[global] Instance typ_eq_dec : EqDecision typ.
Proof. solve_decision. Defined.

Definition typ_String (t : typ) : string :=
  match t with
  | Float => "float" | Int => "int" | Bool => "bool"
  | Vec2 => "vec2" | Vec3 => "vec3" | Vec4 => "vec4"
  | Mat2 => "mat2" | Mat3 => "mat3" | Mat4 => "mat4"
  end.

Definition numeric (t : typ) : bool :=
  match t with Bool => false | _ => true end.

Definition all_types : list typ :=
  [Float; Int; Bool; Vec2; Vec3; Vec4; Mat2; Mat3; Mat4].

Definition parseType (e : Expr) : typ + string :=
  match e with
  | Ident n =>
      match list_find (λ t, typ_String t = n) all_types with
      | Some (_, t) => inl t
      | None => inr ("unexpected type: " +:+ n)
      end
  | OtherExpr text => inr ("unexpected type: " +:+ text)
  | _ => inr "unexpected type"
  end.

#[global] Instance type_system : TypeSystem :=
  Build_TypeSystem typ typ_eq_dec Float Vec4 numeric typ_String parseType.

(** Two runs that differ in the order of [range] over the map. *)
Definition range_forward : MapRange :=
  {| range_order := map_to_list;
     range_order_perm := λ m, reflexivity (map_to_list m) |}.

Definition range_backward : MapRange :=
  {| range_order := λ m, reverse (map_to_list m);
     range_order_perm := λ m, reverse_Permutation (map_to_list m) |}.

Definition tag (value : string) : option BasicLit :=
  Some {| Kind := token.STRING; Value := "`kage:" +:+ dquote +:+ value +:+ dquote +:+ "`" |}.

Definition var_decl (n type_name : string) : string * Object :=
  (n, {| obj_Kind := Var; obj_Name := n;
         obj_Decl := ValueSpecDecl {| vs_Names := [n]; vs_Type := Ident type_name;
                                      vs_Values := [] |} |}).

Definition const_decl (n type_name : string) (value : Expr) : string * Object :=
  (n, {| obj_Kind := Con; obj_Name := n;
         obj_Decl := ValueSpecDecl {| vs_Names := [n]; vs_Type := Ident type_name;
                                      vs_Values := [value] |} |}).

Definition struct_decl (n : string) (fields : list Field) : string * Object :=
  (n, {| obj_Kind := Typ; obj_Name := n; obj_Decl := TypeSpec (StructType fields) |}).

Definition file_of (decls : list (string * Object)) : File :=
  {| Scope_Objects := list_to_map decls |}.

(** The source of the end-to-end scenario of the specification. *)
Definition scenario : File :=
  file_of
    [ struct_decl "VertexOut"
        [ mkField ["Position"] (Ident "vec4") (tag "position");
          mkField ["Texcoord"] (Ident "vec2") None ];
      var_decl "Tex" "vec2";
      var_decl "counter" "float";
      const_decl "Scale" "float" (Lit {| Kind := token.FLOAT; Value := "2.0" |}) ].

(** Two package-level variables of unknown types. *)
Definition two_unknown_types : File :=
  file_of [ var_decl "a" "foo"; var_decl "b" "bar" ].



(** [var A vec2; var A vec3], which the parser accepts, and the same in the
    other order. *)
Definition redeclared_A : list Object :=
  [ (var_decl "A" "vec2").2; (var_decl "A" "vec3").2 ].

Definition redeclared_A_swapped : list Object :=
  [ (var_decl "A" "vec3").2; (var_decl "A" "vec2").2 ].

(** A source without the struct: [var Tex vec2]. *)
Definition no_struct : File := file_of [ var_decl "Tex" "vec2" ].

(** [const a float = 1, 2], which the parser accepts. *)
Definition extra_value : File :=
  file_of
    [ ("a", {| obj_Kind := Con; obj_Name := "a";
               obj_Decl := ValueSpecDecl
                 {| vs_Names := ["a"]; vs_Type := Ident "float";
                    vs_Values := [ Lit {| Kind := token.INT; Value := "1" |};
                                   Lit {| Kind := token.INT; Value := "2" |} ] |} |}) ].



(** A struct with two fields that both pass the checks of the position. *)
Definition two_positions : list Field :=
  [ mkField ["First"] (Ident "vec4") (tag "position");
    mkField ["Texcoord"] (Ident "vec2") None;
    mkField ["Second"] (Ident "vec4") (tag "position");
    mkField ["Color"] (Ident "vec4") None ].

(** The model of the scenario, as the specification gives it. *)
Definition scenario_model : Shader :=
  {| position := plain_variable "Position" Vec4;
     varyings := [plain_variable "Texcoord" Vec2];
     uniforms := [plain_variable "Tex" Vec2];
     globals := [constant_of "Scale" Float "2.0"; plain_variable "counter" Float];
     errs := [] |}.

(** One field for each way through the position branch. *)
Definition other_value : Field :=
  mkField ["A"; "B"] (Ident "vec4") (tag "foo").

(** Fields for the other branches. *)
Definition malformed : Field :=
  mkField ["A"] (Ident "vec2")
    (Some {| Kind := token.STRING; Value := "`json:x`" |}).
Definition two_varyings : Field := mkField ["U"; "V"] (Ident "vec2") None.
Definition boolean_member : Field := mkField ["Flag"] (Ident "bool") None.



End kage.

(** ** The rest of the package: [GlslVertex], and what the walk collects *)

(** [typ.glslString], of the same sibling file as the rest of the type
    system. *)
Class GlslSpelling `{TS : TypeSystem} := { glslString : typ → string }.

Section coverage.
Context `{TS : TypeSystem}.

(** [Shader.GlslVertex]. *)
Definition GlslVertex `{GS : !GlslSpelling} (s : Shader) : string :=
  Join ((λ v, "varying " +:+ glslString (var_typ v) +:+ " " +:+ var_name v +:+ ";")
          <$> varyings s) newline +:+ newline.

(** What one entry of the map adds to each group, read off a run on the
    empty state. *)
Definition entry_varyings (e : string * Object) : list variable :=
  match parseObject e Shader_zero with
  | Done d => varyings d
  | Panic => []
  end.

Definition entry_uniforms (e : string * Object) : list variable :=
  match parseObject e Shader_zero with
  | Done d => uniforms d
  | Panic => []
  end.

Definition entry_globals (e : string * Object) : list variable :=
  match parseObject e Shader_zero with
  | Done d => globals d
  | Panic => []
  end.

(** The initializer kept for the value of a constant: the text of a literal,
    nothing for any other expression. *)
Definition init_of (e : Expr) : string :=
  match e with
  | Lit b => Value b
  | _ => ""
  end.

(** A literal that is neither an integer nor a floating-point literal. *)
Definition bad_literal (e : Expr) : Prop :=
  ∃ b, e = Lit b ∧ Kind b ≠ token.INT ∧ Kind b ≠ token.FLOAT.

(** The fields of the struct of the reserved name, if the source declares
    it as a struct type. *)
Definition struct_fields (f : File) : list Field :=
  match Scope_Objects f !! varyingStructName with
  | Some obj =>
      match obj_Kind obj, obj_Decl obj with
      | Typ, TypeSpec (StructType fs) => fs
      | _, _ => []
      end
  | None => []
  end.

(** The number of line feeds of a text. *)
Fixpoint count_newlines (s : string) : nat :=
  match s with
  | "" => 0
  | String a s' =>
      (if decide (a = "010"%char) then 1 else 0) + count_newlines s'
  end.

(** A variable whose texts in the dump hold no line feed, and one whose
    texts in the target language hold none. *)
Definition one_line_variable (v : variable) : Prop :=
  has_newline (var_name v) = false
  ∧ has_newline (typ_String (var_typ v)) = false
  ∧ has_newline (var_init v) = false.

Definition one_line_glsl `{GS : !GlslSpelling} (v : variable) : Prop :=
  has_newline (var_name v) = false
  ∧ has_newline (glslString (var_typ v)) = false.

(** The fields of an object that declares a struct type. *)
Definition object_fields (obj : Object) : list Field :=
  match obj_Kind obj, obj_Decl obj with
  | Typ, TypeSpec (StructType fs) => fs
  | _, _ => []
  end.

End coverage.

(** Modelled from the spec: the spelling of a type in the target language,
    which for the types of the enumeration is their canonical name. *)
#[global] Instance kage_glsl : GlslSpelling (TS := kage.type_system) :=
  {| glslString := kage.typ_String |}.

(** An object on which the walk panics: the object of the reserved name
    when it is a type without a type specification; a variable with an empty
    name whose type resolves; a constant whose type resolves and that has
    more values than names, unless a value bound to its name ends the method
    with a diagnostic first. *)
Definition object_panics `{TS : TypeSystem} (name : string) (obj : Object)
    : Prop :=
  (name = varyingStructName ∧ obj_Kind obj = Typ
   ∧ ∀ t, obj_Decl obj ≠ TypeSpec t)
  ∨ (name ≠ varyingStructName ∧ obj_Kind obj = Var ∧ name = ""
     ∧ ∃ vs t, obj_Decl obj = ValueSpecDecl vs
               ∧ parseType (vs_Type vs) = inl t)
  ∨ (name ≠ varyingStructName ∧ obj_Kind obj = Con
     ∧ ∃ vs t, obj_Decl obj = ValueSpecDecl vs
               ∧ parseType (vs_Type vs) = inl t
               ∧ length (vs_Names vs) < length (vs_Values vs)
               ∧ ∀ k e, vs_Names vs !! k = Some name →
                        vs_Values vs !! k = Some e → ¬ bad_literal e).

Section acceptance.
Context `{TS : TypeSystem}.

(** A field of the struct that leaves no diagnostic: it passes the checks
    of the position, or it has no tag and a numeric type. *)
Definition field_accepted (fld : Field) : Prop :=
  is_position_field fld = true
  ∨ (Tag fld = None ∧ ∃ t, parseType (Type_ fld) = inl t ∧ numeric t = true).

(** An object that the walk passes without a diagnostic and without a
    panic. *)
Definition object_accepted (name : string) (obj : Object) : Prop :=
  if decide (name = varyingStructName) then
    obj_Kind obj = Typ
    ∧ ∃ fs, obj_Decl obj = TypeSpec (StructType fs) ∧ Forall field_accepted fs
  else
    match obj_Kind obj with
    | Var =>
        name ≠ ""
        ∧ ∃ vs t, obj_Decl obj = ValueSpecDecl vs
                  ∧ parseType (vs_Type vs) = inl t
    | Con =>
        ∃ vs t, obj_Decl obj = ValueSpecDecl vs
                ∧ parseType (vs_Type vs) = inl t
                ∧ length (vs_Values vs) ≤ length (vs_Names vs)
                ∧ ∀ k e, vs_Names vs !! k = Some name →
                         vs_Values vs !! k = Some e → ¬ bad_literal e
    | _ => True
    end.

End acceptance.

(** ** More sources of the shading language *)

Module samples.
Import kage.

(** A function of the package: [func Foo() vec2]. *)
Definition function_Foo : Object :=
  {| obj_Kind := Fun; obj_Name := "Foo"; obj_Decl := OtherDecl |}.

(** A package-level variable of the reserved name: [var VertexOut vec2]. *)
Definition variable_VertexOut : Object := (var_decl "VertexOut" "vec2").2.

(** A field of two names and another type than [vec4] with the tag of the
    position. *)
Definition two_names_wrong_type : Field :=
  mkField ["A"; "B"] (Ident "vec2") (tag "position").

(** Two [ParseError]s of the same two diagnostics. *)
Definition foo_then_bar : ParseError :=
  {| pe_errs := ["unexpected type: foo"; "unexpected type: bar"] |}.

Definition bar_then_foo : ParseError :=
  {| pe_errs := ["unexpected type: bar"; "unexpected type: foo"] |}.

End samples.

(** * Properties *)

(** ** The order of names *)

Lemma ltb_not_leb (a b : string) : String.ltb a b = negb (String.leb b a).
Proof.
  unfold String.ltb, String.leb. rewrite (String.compare_antisym a b).
  by destruct (String.compare b a).
Qed.

Lemma ltb_false_le (a b : string) : String.ltb a b = false ↔ String.le b a.
Proof.
  rewrite ltb_not_leb. unfold String.le.
  destruct (String.leb b a); simpl; naive_solver.
Qed.

Lemma ltb_true_not_le (a b : string) : String.ltb a b = true ↔ ¬ String.le b a.
Proof.
  rewrite <- ltb_false_le. destruct (String.ltb a b); naive_solver.
Qed.

Lemma string_ltb_strict_weak : StrictWeak String.ltb.
Proof.
  split.
  - intros x. by apply ltb_false_le.
  - intros x y z Hxy%ltb_true_not_le Hyz%ltb_true_not_le.
    apply ltb_true_not_le. intros Hzx.
    destruct (total String.le y x) as [Hyx|Hxy']; [done|].
    apply Hyz. by etrans.
  - intros x y z Hxy%ltb_false_le Hyz%ltb_false_le.
    apply ltb_false_le. by etrans.
Qed.

(** ** Insertion sort obeys the contract of [sort.Slice] *)

Section insertion.
Context {A : Type} (less : A → A → bool).

Lemma insert_left_perm x l : insert_left less x l ≡ₚ x :: l.
Proof.
  induction l as [|y r IH]; simpl; [done|].
  destruct (less x y); [|done].
  rewrite IH. apply Permutation_swap.
Qed.

Lemma insertionSort_perm l : insertionSort less l ≡ₚ l.
Proof.
  unfold insertionSort. rewrite reverse_Permutation.
  cut (∀ acc, foldl (λ acc x, insert_left less x acc) acc l ≡ₚ l ++ acc).
  { intros H. by rewrite H, app_nil_r. }
  induction l as [|x l IH]; intros acc; simpl; [done|].
  rewrite IH, insert_left_perm. by rewrite Permutation_middle.
Qed.

Lemma insert_left_sorted x l :
  StrictWeak less →
  Sorted (λ a b, less a b = false) l →
  Sorted (λ a b, less a b = false) (insert_left less x l).
Proof.
  intros SW. induction 1 as [|y r Hr IH Hhd]; simpl.
  { by repeat constructor. }
  destruct (less x y) eqn:Hxy.
  - constructor; [done|].
    destruct Hhd as [|z r' Hyz]; simpl.
    + constructor. destruct (less y x) eqn:Hyx; [|done].
      pose proof (sw_trans _ SW _ _ _ Hxy Hyx) as Hxx.
      by rewrite (sw_irrefl _ SW) in Hxx.
    + destruct (less x z); constructor; [done|].
      destruct (less y x) eqn:Hyx; [|done].
      pose proof (sw_trans _ SW _ _ _ Hxy Hyx) as Hxx.
      by rewrite (sw_irrefl _ SW) in Hxx.
  - constructor; [by constructor|by constructor].
Qed.

Lemma insertionSort_sorted l :
  StrictWeak less → Sorted (λ x y, less y x = false) (insertionSort less l).
Proof.
  intros SW. unfold insertionSort.
  apply (Sorted_reverse (λ a b, less a b = false)).
  cut (∀ acc, Sorted (λ a b, less a b = false) acc →
         Sorted (λ a b, less a b = false)
           (foldl (λ acc x, insert_left less x acc) acc l)).
  { intros H. apply H. constructor. }
  induction l as [|x l IH]; intros acc Hacc; simpl; [done|].
  by apply IH, insert_left_sorted.
Qed.

End insertion.

#[global] Instance sort_insertion : SliceSort :=
  {| sort_Slice := @insertionSort;
     sort_Slice_perm := @insertionSort_perm;
     sort_Slice_sorted := λ A less l, insertionSort_sorted less l |}.

(** ** The walk as a sum of independent contributions *)

Ltac framed :=
  unfold addError, set_position, append_varying, append_uniform, append_global;
  simpl; rewrite ?app_nil_r; try done.

Section walk.
Context `{TS : TypeSystem}.

Lemma append_varyings_foldl t ns s :
  foldl (λ sh' n, append_varying (plain_variable n t) sh') s ns
  = {| position := position s;
       varyings := varyings s ++ ((λ n, plain_variable n t) <$> ns);
       uniforms := uniforms s; globals := globals s; errs := errs s |}.
Proof.
  revert s. induction ns as [|n ns IH]; intros s; simpl.
  - rewrite app_nil_r. by destruct s.
  - rewrite IH. simpl. by rewrite <- app_assoc.
Qed.

Lemma is_position_field_spec f :
  is_position_field f = true ↔
  ∃ tag n, Tag f = Some tag ∧ kageTagRe (Value tag) = Some "position"
           ∧ Names f = [n] ∧ parseType (Type_ f) = inl typVec4.
Proof.
  unfold is_position_field. split.
  - destruct (Tag f) as [tag|]; [|done].
    rewrite !andb_true_iff, !bool_decide_eq_true. intros [[H1 H2] H3].
    destruct (Names f) as [|n [|??]]; simplify_eq/=. by exists tag, n.
  - intros (tag & n & -> & H1 & H2 & H3).
    rewrite H1, H2, H3. simpl. by rewrite !bool_decide_eq_true_2.
Qed.

Lemma parseVaryingField_apply f s :
  parseVaryingField f s = apply_effect (field_effect f) s.
Proof.
  unfold field_effect, field_position, position_of, apply_effect.
  destruct (is_position_field f) eqn:Hpos.
  - apply is_position_field_spec in Hpos as (tag & n & Htag & Hre & Hn & Hty).
    unfold parseVaryingField. rewrite Htag, Hre, Hn, Hty. simpl.
    rewrite decide_False by naive_solver. rewrite decide_False by naive_solver.
    simpl. by rewrite !app_nil_r.
  - assert (¬ ∃ tag n, Tag f = Some tag ∧ kageTagRe (Value tag) = Some "position"
           ∧ Names f = [n] ∧ parseType (Type_ f) = inl typVec4) as Hno.
    { rewrite <- is_position_field_spec. by rewrite Hpos. }
    unfold parseVaryingField.
    destruct (Tag f) as [tag|] eqn:Htag.
    + destruct (kageTagRe (Value tag)) as [m1|] eqn:Hre; [|by framed].
      destruct (decide (m1 ≠ "position")) as [|Hm%dec_stable]; [by framed|].
      subst m1.
      destruct (Names f) as [|n [|??]] eqn:Hn; [by framed| |by framed].
      destruct (parseType (Type_ f)) as [t|err] eqn:Hty; [|by framed].
      destruct (decide (t ≠ typVec4)) as [|Ht%dec_stable]; [by framed|]. subst t.
      destruct Hno. by exists tag, n.
    + destruct (parseType (Type_ f)) as [t|err] eqn:Hty; [|by framed].
      destruct (negb (numeric t)); [by framed|].
      rewrite !append_varyings_foldl. by framed.
Qed.

Lemma apply_effect_seq d1 d2 s :
  apply_effect d2 (apply_effect d1 s) = apply_effect (effect_seq d1 d2) s.
Proof.
  unfold apply_effect, effect_seq. simpl. rewrite <- !app_assoc.
  by destruct (e_position d2), (e_position d1).
Qed.

Lemma apply_effect_none s : apply_effect effect_none s = s.
Proof. unfold apply_effect. simpl. rewrite !app_nil_r. by destruct s. Qed.

Lemma parseVaryingFields_apply fs s :
  foldl (λ sh' f, parseVaryingField f sh') s fs
  = apply_effect (fields_effect fs) s.
Proof.
  unfold fields_effect.
  cut (∀ d, foldl (λ sh' f, parseVaryingField f sh') (apply_effect d s) fs
            = apply_effect (foldl (λ d f, effect_seq d (field_effect f)) d fs) s).
  { intros H. by rewrite <- H, apply_effect_none. }
  induction fs as [|f fs IH]; intros d; simpl; [done|].
  by rewrite parseVaryingField_apply, apply_effect_seq, IH.
Qed.

End walk.

Section entries.
Context `{TS : TypeSystem}.

Lemma has_effect_error msg :
  has_effect (λ s, Done (addError msg s))
    (Done {| e_position := None; e_varyings := []; e_uniforms := [];
             e_globals := []; e_errs := [msg] |}).
Proof. intros s. unfold res_map, apply_effect. simpl. by framed. Qed.

Lemma has_effect_global g :
  has_effect (λ s, Done (append_global g s))
    (Done {| e_position := None; e_varyings := []; e_uniforms := [];
             e_globals := [g]; e_errs := [] |}).
Proof. intros s. unfold res_map, apply_effect. simpl. by framed. Qed.

Lemma has_effect_uniform u :
  has_effect (λ s, Done (append_uniform u s))
    (Done {| e_position := None; e_varyings := []; e_uniforms := [u];
             e_globals := []; e_errs := [] |}).
Proof. intros s. unfold res_map, apply_effect. simpl. by framed. Qed.

Lemma has_effect_after d0 a r :
  has_effect a r →
  has_effect (λ s, a (apply_effect d0 s)) (res_map (effect_seq d0) r).
Proof.
  intros Ha s. rewrite Ha. destruct r as [d|]; simpl; [|done].
  by rewrite apply_effect_seq.
Qed.

Lemma package_level_after d0 r :
  e_position d0 = None → e_varyings d0 = [] →
  package_level r → package_level (res_map (effect_seq d0) r).
Proof.
  intros Hp Hv Hr d Hd. destruct r as [d'|]; simplify_eq/=.
  destruct (Hr d' eq_refl) as [-> ->]. by rewrite Hp, Hv.
Qed.

Lemma constantValues_effect name t names values i :
  ∃ r, has_effect (constantValues name t names i values) r ∧ package_level r.
Proof.
  revert i. induction values as [|v rest IH]; intros i; simpl.
  { exists (Done effect_none). split; [|by intros ? [= <-]].
    intros s. simpl. by rewrite apply_effect_none. }
  destruct (names !! i) as [n|]; [|by exists Panic].
  destruct (decide (n ≠ name)); [apply IH|].
  destruct (IH (S i)) as (r & Hr & Hpl).
  assert (∀ init, ∃ r',
    has_effect (λ s, constantValues name t names (S i) rest
      (append_global {| var_name := name; var_typ := t; var_constant := true;
                        var_init := init |} s)) r' ∧ package_level r') as Happ.
  { intros init.
    set (dg := {| e_position := None; e_varyings := []; e_uniforms := [];
                  e_globals := [{| var_name := name; var_typ := t;
                                   var_constant := true; var_init := init |}];
                  e_errs := [] |}).
    exists (res_map (effect_seq dg) r). split.
    - intros s. rewrite <- (has_effect_after dg _ _ Hr s). f_equal.
      unfold apply_effect. simpl. by framed.
    - by apply package_level_after. }
  destruct v as [| |b| |]; try apply (Happ "").
  destruct (decide _); [|apply Happ].
  eexists. split; [apply has_effect_error|by intros ? [= <-]].
Qed.

Lemma parsePackageLevelConstant_effect name obj :
  ∃ r, has_effect (parsePackageLevelConstant name obj) r ∧ package_level r.
Proof.
  unfold parsePackageLevelConstant.
  destruct (obj_Decl obj) as [|vs|];
    try (eexists; split; [apply has_effect_error|by intros ? [= <-]]).
  destruct (parseType (vs_Type vs)) as [t|err]; [apply constantValues_effect|].
  eexists; split; [apply has_effect_error|by intros ? [= <-]].
Qed.

Lemma parsePackageLevelVariable_effect name obj :
  ∃ r, has_effect (parsePackageLevelVariable name obj) r ∧ package_level r.
Proof.
  unfold parsePackageLevelVariable.
  destruct (obj_Decl obj) as [|vs|];
    try (eexists; split; [apply has_effect_error|by intros ? [= <-]]).
  destruct (parseType (vs_Type vs)) as [t|err];
    [|eexists; split; [apply has_effect_error|by intros ? [= <-]]].
  destruct name as [|c name']; [by exists Panic|].
  destruct (_ && _).
  - eexists; split; [apply has_effect_uniform|by intros ? [= <-]].
  - eexists; split; [apply has_effect_global|by intros ? [= <-]].
Qed.

Lemma fields_effect_position fs v :
  e_position (fields_effect fs) = Some v →
  ∃ f, f ∈ fs ∧ is_position_field f = true ∧ v = position_of f.
Proof.
  unfold fields_effect.
  cut (∀ d, e_position (foldl (λ d f, effect_seq d (field_effect f)) d fs) = Some v →
            e_position d = Some v
            ∨ ∃ f, f ∈ fs ∧ is_position_field f = true ∧ v = position_of f).
  { intros H Hv. by destruct (H _ Hv). }
  induction fs as [|f fs IH]; intros d Hd; simpl in *; [by left|].
  destruct (IH _ Hd) as [Hf|(f' & ? & ? & ?)].
  - unfold effect_seq, field_effect, field_position in Hf. simpl in Hf.
    destruct (is_position_field f) eqn:Hpos; simplify_eq/=.
    + right. exists f. split; [left|done].
    + by left.
  - right. exists f'. split; [by right|done].
Qed.

Lemma parseVaryingStruct_effect obj :
  ∃ r, has_effect (parseVaryingStruct obj) r ∧ vec4_position r.
Proof.
  unfold parseVaryingStruct.
  destruct (decide _);
    [eexists; split; [apply has_effect_error|by intros ?? [= <-]]|].
  destruct (obj_Decl obj) as [t| |]; [|by exists Panic..].
  destruct t as [| | |fields|];
    try (eexists; split; [apply has_effect_error|by intros ?? [= <-]]).
  exists (Done (fields_effect fields)). split.
  - intros s. simpl. by rewrite parseVaryingFields_apply.
  - intros d v [= <-] (f & _ & _ & ->)%fields_effect_position. done.
Qed.

Lemma parseObject_effect e :
  ∃ r, has_effect (parseObject e) r
       ∧ (e.1 ≠ varyingStructName → package_level r)
       ∧ vec4_position r.
Proof.
  destruct e as [name obj]. unfold parseObject. simpl.
  destruct (decide (name = varyingStructName)) as [->|Hne].
  { destruct (parseVaryingStruct_effect obj) as (r & ? & ?). by exists r. }
  assert (∀ r, package_level r → vec4_position r) as Hpv.
  { intros r Hr d v -> Hv. destruct (Hr d eq_refl). congruence. }
  destruct (obj_Kind obj).
  3: { destruct (parsePackageLevelConstant_effect name obj) as (r & ? & ?).
       exists r. auto. }
  4: { destruct (parsePackageLevelVariable_effect name obj) as (r & ? & ?).
       exists r. auto. }
  all: exists (Done effect_none);
    (split; [intros s; simpl; by rewrite apply_effect_none|]);
    split; [by intros ? ? [= <-]|by intros ?? [= <-]].
Qed.

End entries.

(** ** The order of the walk matters up to the order of the lists only *)

Section order.
Context `{TS : TypeSystem}.

#[global] Instance shader_equiv_equivalence : Equivalence shader_equiv.
Proof.
  split.
  - by intros s.
  - intros s1 s2 (? & ? & ? & ? & ?). by repeat split.
  - intros s1 s2 s3 (? & ? & ? & ? & ?) (? & ? & ? & ? & ?).
    repeat split; by etrans.
Qed.

#[global] Instance res_equiv_equivalence : Equivalence res_equiv.
Proof.
  split.
  - by intros [s|].
  - intros [s1|] [s2|]; simpl; try done; by intros ->.
  - intros [s1|] [s2|] [s3|]; simpl; try done; by intros -> ->.
Qed.

Lemma apply_effect_equiv d s s' :
  shader_equiv s s' → shader_equiv (apply_effect d s) (apply_effect d s').
Proof.
  intros (Hp & Hv & Hu & Hg & He). unfold apply_effect.
  repeat split; simpl; [by rewrite Hp| by f_equiv..].
Qed.

Lemma has_effect_equiv a r s s' :
  has_effect a r → shader_equiv s s' → res_equiv (a s) (a s').
Proof.
  intros Ha Hs. rewrite !Ha. destruct r as [d|]; simpl; [|done].
  by apply apply_effect_equiv.
Qed.

Lemma parseObject_equiv e s s' :
  shader_equiv s s' → res_equiv (parseObject e s) (parseObject e s').
Proof.
  destruct (parseObject_effect e) as (r & Hr & _).
  by apply (has_effect_equiv _ r).
Qed.

Lemma parse_entries_equiv l s s' :
  shader_equiv s s' → res_equiv (parse_entries l s) (parse_entries l s').
Proof.
  revert s s'. induction l as [|e l IH]; intros s s' Hs; simpl; [done|].
  pose proof (parseObject_equiv e s s' Hs) as He.
  destruct (parseObject e s), (parseObject e s'); simpl in *; try done.
  by apply IH.
Qed.

Lemma parseObject_swap e1 e2 s :
  e1.1 ≠ e2.1 →
  res_equiv (res_bind (parseObject e1 s) (parseObject e2))
            (res_bind (parseObject e2 s) (parseObject e1)).
Proof.
  intros Hne.
  destruct (parseObject_effect e1) as (r1 & H1 & Hpl1 & _).
  destruct (parseObject_effect e2) as (r2 & H2 & Hpl2 & _).
  rewrite (H1 s), (H2 s).
  destruct r1 as [d1|], r2 as [d2|]; simpl; rewrite ?H1, ?H2; simpl; try done.
  assert (e_position d1 = None ∨ e_position d2 = None) as Hpos.
  { destruct (decide (e1.1 = varyingStructName)) as [Heq|Hn1].
    - right. apply (Hpl2 ltac:(congruence) d2 eq_refl).
    - left. apply (Hpl1 Hn1 d1 eq_refl). }
  unfold apply_effect. repeat split; simpl.
  - destruct Hpos as [Hp|Hp]; rewrite Hp; simpl; by destruct (e_position _).
  - rewrite <- !app_assoc. f_equiv. apply (comm (++)).
  - rewrite <- !app_assoc. f_equiv. apply (comm (++)).
  - rewrite <- !app_assoc. f_equiv. apply (comm (++)).
  - rewrite <- !app_assoc. f_equiv. apply (comm (++)).
Qed.

Lemma parse_entries_perm l1 l2 :
  l1 ≡ₚ l2 → NoDup l1.*1 →
  ∀ s s', shader_equiv s s' →
          res_equiv (parse_entries l1 s) (parse_entries l2 s').
Proof.
  induction 1 as [|e l1 l2 Hl IH|e1 e2 l|l1 l2 l3 H12 IH12 H23 IH23];
    intros Hnd s s' Hs.
  - done.
  - simpl. apply NoDup_cons in Hnd as [_ Hnd].
    pose proof (parseObject_equiv e s s' Hs) as He.
    destruct (parseObject e s), (parseObject e s'); simpl in *; try done.
    by apply IH.
  - simpl in Hnd. apply NoDup_cons in Hnd as [Hne _].
    assert (e2.1 ≠ e1.1) as Hne' by set_solver.
    etrans; [apply parse_entries_equiv, Hs|].
    pose proof (parseObject_swap e1 e2 s' ltac:(done)) as Hsw.
    simpl.
    destruct (parseObject e2 s') as [s2|] eqn:E2;
      destruct (parseObject e1 s') as [s1|] eqn:E1; simpl in *.
    + destruct (parseObject e1 s2) as [s21|], (parseObject e2 s1) as [s12|];
        simpl in *; try done.
      apply parse_entries_equiv. by symmetry.
    + by destruct (parseObject e1 s2).
    + by destruct (parseObject e2 s1).
    + done.
  - etrans; [apply IH12; [done|reflexivity]|].
    apply IH23; [|done]. by rewrite <- H12.
Qed.

Lemma parse_entries_errs l s s' :
  parse_entries l s = Done s' → errs s' = errs s ++ (l ≫= entry_errs).
Proof.
  revert s. induction l as [|e l IH]; intros s Hs; simpl in *.
  { simplify_eq. by rewrite app_nil_r. }
  destruct (parseObject_effect e) as (r & Hr & _).
  unfold entry_errs at 1. rewrite (Hr s) in Hs. rewrite (Hr Shader_zero).
  destruct r as [d|]; simpl in *; [|done].
  rewrite (IH _ Hs). simpl. by rewrite app_assoc.
Qed.

Lemma parse_entries_position l s s' :
  parse_entries l s = Done s' →
  (position s' = position s
   ∨ position s' = plain_variable (var_name (position s')) typVec4)
  ∧ (varyingStructName ∉ l.*1 → position s' = position s).
Proof.
  revert s. induction l as [|e l IH]; intros s Hs; simpl in *.
  { simplify_eq. split; [by left|done]. }
  destruct (parseObject_effect e) as (r & Hr & Hpl & Hv4).
  rewrite (Hr s) in Hs. destruct r as [d|]; simpl in *; [|done].
  destruct (IH _ Hs) as [Hp Hno]. simpl in *. split.
  - destruct Hp as [Hp|Hp]; [|by right]. rewrite Hp.
    destruct (e_position d) as [v|] eqn:Hd; simpl; [|by left].
    right. apply (Hv4 d v eq_refl Hd).
  - intros Hnotin. apply not_elem_of_cons in Hnotin as [Hne Hnotin].
    rewrite (Hno Hnotin).
    destruct (Hpl ltac:(done) d eq_refl) as [-> _]. done.
Qed.

Lemma parseObject_uniforms e s s' :
  parseObject e s = Done s' →
  uniforms s' = uniforms s
  ∨ ∃ t, uniforms s' = uniforms s ++ [plain_variable e.1 t].
Proof.
  destruct e as [name obj]. unfold parseObject. simpl.
  destruct (decide (name = varyingStructName)).
  - unfold parseVaryingStruct. destruct (decide _); [intros [= <-]; by left|].
    destruct (obj_Decl obj) as [t| |]; try done.
    destruct t; try (intros [= <-]; by left).
    intros [= <-]. left. rewrite parseVaryingFields_apply.
    unfold fields_effect. cut (∀ d fs,
      e_uniforms (foldl (λ d f, effect_seq d (field_effect f)) d fs)
      = e_uniforms d).
    { intros H. simpl. rewrite H. simpl. by rewrite app_nil_r. }
    intros d fs. revert d. induction fs as [|f fs IH]; intros d; simpl; [done|].
    rewrite IH. simpl. by rewrite app_nil_r.
  - destruct (obj_Kind obj); try (intros [= <-]; by left).
    + unfold parsePackageLevelConstant.
      destruct (obj_Decl obj) as [|vs|]; try (intros [= <-]; by left).
      destruct (parseType _); [|intros [= <-]; by left].
      intros Hs. left. revert Hs. generalize 0. generalize (vs_Values vs).
      intros values. revert s.
      induction values as [|v rest IH]; intros s i; simpl.
      { by intros [= ->]. }
      destruct (vs_Names vs !! i) as [n'|]; [|done].
      destruct (decide (n' ≠ name)); [apply IH|].
      destruct v as [| |b| |]; try (intros Hs; by rewrite (IH _ _ Hs)).
      destruct (decide _); [by intros [= <-]|].
      intros Hs. by rewrite (IH _ _ Hs).
    + unfold parsePackageLevelVariable.
      destruct (obj_Decl obj) as [|vs|]; try (intros [= <-]; by left).
      destruct (parseType _) as [t|]; [|intros [= <-]; by left].
      destruct name; [done|].
      destruct (_ && _); intros [= <-]; [right; by exists t|by left].
Qed.

Lemma parse_entries_uniforms l s s' :
  parse_entries l s = Done s' →
  ∃ k, var_name <$> uniforms s' = (var_name <$> uniforms s) ++ k
       ∧ sublist k l.*1.
Proof.
  revert s. induction l as [|e l IH]; intros s; simpl.
  { intros [= ->]. exists []. by rewrite app_nil_r. }
  destruct (parseObject e s) as [s1|] eqn:He; simpl; [|done].
  intros (k & Hk & Hsub)%IH.
  destruct (parseObject_uniforms _ _ _ He) as [Hu|[t Hu]]; rewrite Hu in Hk.
  - exists k. split; [done|]. by apply sublist_cons.
  - exists (e.1 :: k). split; [|by apply sublist_skip].
    rewrite Hk, fmap_app, <- app_assoc. done.
Qed.

Lemma parse_entries_uniforms_distinct l s :
  NoDup l.*1 → parse_entries l Shader_zero = Done s →
  NoDup (var_name <$> uniforms s).
Proof.
  intros Hnd (k & -> & Hsub)%parse_entries_uniforms. simpl.
  by eapply sublist_NoDup.
Qed.

End order.

(** ** Sorting by name *)

Section sorting.
Context `{TS : TypeSystem}.

Lemma name_less_strict_weak : StrictWeak name_less.
Proof.
  destruct string_ltb_strict_weak as [Hi Ht Hc]. unfold name_less.
  split; eauto.
Qed.

Lemma name_less_sorted (l : list variable) :
  Sorted (λ x y, name_less y x = false) l ↔ sorted_by_name l.
Proof.
  unfold sorted_by_name.
  assert (∀ x l, HdRel (λ x y, name_less y x = false) x l
                 ↔ HdRel (λ a b, String.le (var_name a) (var_name b)) x l) as Hhd.
  { intros x k. split; destruct 1; constructor; by apply ltb_false_le. }
  split; induction 1; constructor; try done; by apply Hhd.
Qed.

Lemma perm_same_keys {A B} (g : A → B) (l1 l2 : list A) :
  l1 ≡ₚ l2 → NoDup (g <$> l1) → g <$> l1 = g <$> l2 → l1 = l2.
Proof.
  revert l2. induction l1 as [|x l1 IH]; intros [|y l2] Hp Hnd Heq;
    simplify_eq/=; [done|].
  apply NoDup_cons in Hnd as [Hx Hnd].
  assert (x = y) as ->.
  { assert (x ∈ y :: l2) as [->|Hin]%elem_of_cons; [by rewrite <- Hp; left|done|].
    destruct Hx. rewrite H0. by apply list_elem_of_fmap_2. }
  f_equal. apply IH; [|done..]. by apply (inj (y ::.)).
Qed.

Lemma sorted_by_name_unique (l1 l2 : list variable) :
  l1 ≡ₚ l2 → NoDup (var_name <$> l1) →
  sorted_by_name l1 → sorted_by_name l2 → l1 = l2.
Proof.
  intros Hp Hnd H1 H2. apply (perm_same_keys var_name); [done..|].
  apply (Sorted_unique String.le).
  - eapply Sorted_fmap; [|exact H1]; done.
  - eapply Sorted_fmap; [|exact H2]; done.
  - by rewrite Hp.
Qed.

Context `{SS : SliceSort}.

Lemma sort_Slice_by_name l : sorted_by_name (sort_Slice name_less l).
Proof. apply name_less_sorted, sort_Slice_sorted, name_less_strict_weak. Qed.

Lemma sort_Slice_unique l1 l2 :
  l1 ≡ₚ l2 → NoDup (var_name <$> l1) →
  sort_Slice name_less l1 = sort_Slice name_less l2.
Proof.
  intros Hp Hnd. apply sorted_by_name_unique.
  - by rewrite !sort_Slice_perm.
  - by rewrite sort_Slice_perm.
  - apply sort_Slice_by_name.
  - apply sort_Slice_by_name.
Qed.

Lemma sort_groups_equiv s1 s2 :
  shader_equiv s1 s2 → distinct_names s1 →
  NoDup (var_name <$> uniforms s1) → errs s1 = [] →
  sort_groups s1 = sort_groups s2.
Proof.
  intros (Hp & Hv & Hu & Hg & He) (Nv & Ng) Nu Hnil. unfold sort_groups.
  rewrite Hnil in He. apply Permutation_nil_l in He.
  rewrite Hp, Hnil, He.
  by rewrite (sort_Slice_unique _ _ Hv Nv), (sort_Slice_unique _ _ Hu Nu),
    (sort_Slice_unique _ _ Hg Ng).
Qed.

Lemma sort_groups_distinct s : distinct_names (sort_groups s) ↔ distinct_names s.
Proof.
  unfold distinct_names, sort_groups. simpl. by rewrite !sort_Slice_perm.
Qed.

End sorting.

(** ** The fields of the struct *)

Section fields.
Context `{TS : TypeSystem}.

Lemma fields_effect_closed fs d :
  foldl (λ d f, effect_seq d (field_effect f)) d fs
  = {| e_position := match last (omap field_position fs) with
                     | Some v => Some v
                     | None => e_position d
                     end;
       e_varyings := e_varyings d ++ (fs ≫= λ f, e_varyings (field_effect f));
       e_uniforms := e_uniforms d;
       e_globals := e_globals d;
       e_errs := e_errs d ++ (fs ≫= λ f, e_errs (field_effect f)) |}.
Proof.
  revert d. induction fs as [|f fs IH]; intros d; csimpl.
  { rewrite !app_nil_r. by destruct d. }
  rewrite IH. unfold effect_seq. simpl. rewrite !app_nil_r, <- !app_assoc.
  f_equal. destruct (field_position f) as [v|]; [|done].
  rewrite last_cons. by destruct (last _).
Qed.

Lemma field_position_untagged f : Tag f = None → field_position f = None.
Proof.
  intros Htag. unfold field_position, is_position_field. by rewrite Htag.
Qed.

Lemma field_positions_tagged (fs : list Field) :
  omap field_position fs
  = omap field_position (filter (λ f, is_Some (Tag f)) fs).
Proof.
  induction fs as [|f fs IH]; [done|].
  rewrite filter_cons. destruct (decide (is_Some (Tag f))) as [|Hno]; csimpl.
  - by rewrite IH.
  - rewrite field_position_untagged; [done|].
    by apply eq_None_not_Some.
Qed.

Lemma fields_effect_reordered fs1 fs2 s :
  fields_reordered fs1 fs2 →
  shader_equiv (apply_effect (fields_effect fs1) s)
               (apply_effect (fields_effect fs2) s).
Proof.
  intros [Hp Ht]. unfold fields_effect. rewrite !fields_effect_closed.
  unfold apply_effect. simpl. repeat split; simpl; try done.
  - by rewrite (field_positions_tagged fs1), Ht, <- field_positions_tagged.
  - by rewrite Hp.
  - by rewrite Hp.
Qed.

Lemma position_field_apply f s :
  is_position_field f = true →
  parseVaryingField f s = set_position (position_of f) s.
Proof.
  intros (tag & n & Htag & Hre & Hn & Hty)%is_position_field_spec.
  unfold parseVaryingField, position_of. rewrite Htag, Hre, Hn, Hty.
  destruct (decide ("position" ≠ "position")); [done|].
  destruct (decide (typVec4 ≠ typVec4)); done.
Qed.

Lemma fields_position (fs : list Field) s :
  position (foldl (λ sh' f, parseVaryingField f sh') s fs)
  = default (position s) (position_of <$> last (filter (λ f, is_position_field f = true) fs)).
Proof.
  rewrite parseVaryingFields_apply. unfold fields_effect.
  rewrite fields_effect_closed. simpl.
  assert (omap field_position fs
          = position_of <$> filter (λ f, is_position_field f = true) fs) as ->.
  { induction fs as [|f fs IH]; [done|]. rewrite filter_cons. csimpl.
    unfold field_position at 1.
    destruct (is_position_field f); csimpl.
    - by rewrite IH.
    - done. }
  rewrite fmap_last. by destruct (last _).
Qed.

End fields.

Section reorder.
Context `{TS : TypeSystem}.

Lemma NoDup_range (MR : MapRange) (f : File) :
  NoDup (range_order (Scope_Objects f)).*1.
Proof. rewrite range_order_perm. apply NoDup_fst_map_to_list. Qed.

Lemma parse_order (MR1 MR2 : MapRange) f s :
  res_equiv (@parse _ MR1 f s) (@parse _ MR2 f s).
Proof.
  unfold parse. apply parse_entries_perm; [|..|done].
  - by rewrite !range_order_perm.
  - rewrite range_order_perm. apply NoDup_fst_map_to_list.
Qed.

Lemma parse_reordered (MR1 MR2 : MapRange) f1 f2 s :
  same_objects f1 f2 →
  res_equiv (@parse _ MR1 f1 s) (@parse _ MR2 f2 s).
Proof.
  intros [->|(k & n & fs1 & fs2 & H1 & H2 & Hfs)]; [apply parse_order|].
  unfold parse. rewrite H2.
  set (o1 := {| obj_Kind := k; obj_Name := n;
                obj_Decl := TypeSpec (StructType fs1) |}) in *.
  set (o2 := {| obj_Kind := k; obj_Name := n;
                obj_Decl := TypeSpec (StructType fs2) |}) in *.
  set (m := Scope_Objects f1) in *.
  set (rest := map_to_list (delete varyingStructName m)).
  assert (range_order (MapRange := MR1) m ≡ₚ (varyingStructName, o1) :: rest) as P1.
  { rewrite range_order_perm. symmetry. by apply map_to_list_delete. }
  assert (range_order (MapRange := MR2) (<[varyingStructName:=o2]> m)
            ≡ₚ (varyingStructName, o2) :: rest) as P2.
  { rewrite range_order_perm, <- insert_delete_eq.
    apply map_to_list_insert, lookup_delete_eq. }
  assert (NoDup (rest.*1)) as Nrest by apply NoDup_fst_map_to_list.
  assert (varyingStructName ∉ rest.*1) as Hnotin.
  { intros ((i & o) & Hi & Hin)%list_elem_of_fmap. simpl in Hi. subst i.
    apply elem_of_map_to_list in Hin. by rewrite lookup_delete_eq in Hin. }
  etrans; [apply (parse_entries_perm _ _ P1); [|reflexivity]|].
  { rewrite P1. simpl. by apply NoDup_cons. }
  etrans; [|symmetry; apply (parse_entries_perm _ _ P2); [|reflexivity]].
  2: { rewrite P2. simpl. by apply NoDup_cons. }
  cbn [parse_entries parseObject].
  destruct (decide (varyingStructName = varyingStructName)); [|done].
  unfold parseVaryingStruct, o1, o2. simpl.
  destruct (decide (k ≠ Typ)); simpl; [reflexivity|].
  rewrite !parseVaryingFields_apply.
  apply parse_entries_equiv. by apply fields_effect_reordered.
Qed.

End reorder.

(** ** When the walk completes *)

Section completion.
Context `{TS : TypeSystem}.

Lemma constantValues_completes name t names values i s :
  i + length values ≤ length names →
  ∃ s', constantValues name t names i values s = Done s'.
Proof.
  revert i s. induction values as [|v rest IH]; intros i s Hlen; simpl in *.
  { by eexists. }
  destruct (lookup_lt_is_Some_2 names i ltac:(lia)) as [n ->].
  destruct (decide (n ≠ name)); [apply IH; lia|].
  destruct v as [| |b| |]; try (apply IH; lia).
  destruct (decide _); [by eexists|apply IH; lia].
Qed.

Lemma parseObject_completes name obj s :
  well_formed_entry name obj = true → ∃ s', parseObject (name, obj) s = Done s'.
Proof.
  unfold well_formed_entry, parseObject.
  destruct (decide (name = varyingStructName)) as [->|Hne].
  - unfold parseVaryingStruct.
    destruct (decide (obj_Kind obj ≠ Typ)) as [|Hk%dec_stable]; [by eexists|].
    rewrite Hk.
    destruct (obj_Decl obj) as [t| |]; try done.
    destruct t; by eexists.
  - destruct (obj_Kind obj); try by eexists.
    + unfold parsePackageLevelConstant.
      destruct (obj_Decl obj) as [|vs|]; try by eexists.
      intros Hlen%bool_decide_eq_true.
      destruct (parseType _); [|by eexists].
      apply constantValues_completes. simpl. lia.
    + unfold parsePackageLevelVariable. intros Hname%bool_decide_eq_true.
      destruct (obj_Decl obj) as [|vs|]; try by eexists.
      destruct (parseType _); [|by eexists].
      destruct name; [done|]. destruct (_ && _); by eexists.
Qed.

Lemma parse_entries_completes l s :
  Forall (λ e, well_formed_entry e.1 e.2 = true) l →
  ∃ s', parse_entries l s = Done s'.
Proof.
  intros Hl. revert s. induction Hl as [|[name obj] l He Hl IH]; intros s; simpl.
  { by eexists. }
  destruct (parseObject_completes name obj s He) as [s' Hs'].
  unfold parseObject in Hs'. rewrite Hs'. simpl. apply IH.
Qed.

Lemma parse_completes `{MR : MapRange} f s :
  well_formed f → ∃ s', parse f s = Done s'.
Proof.
  intros Hwf. apply parse_entries_completes.
  rewrite range_order_perm. apply map_Forall_to_list in Hwf.
  eapply Forall_impl; [exact Hwf|]. by intros [??].
Qed.

End completion.

(** ** The scope of a source *)








(** ** The outcome of [NewShader] *)

Section results.
Context `{TS : TypeSystem} `{SS : SliceSort}.

Lemma NewShader_syntax_error `{MR : MapRange} err :
  NewShader (inr err) = Done (inr (SyntaxError err)).
Proof. done. Qed.

Lemma NewShader_success `{MR : MapRange} f m :
  NewShader (inl f) = Done (inl m) →
  ∃ s, parse f Shader_zero = Done s ∧ errs s = [] ∧ m = sort_groups s.
Proof.
  unfold NewShader, res_map, NewShader_result.
  destruct (parse f Shader_zero) as [s|]; simpl; [|done].
  destruct (decide _) as [|Hlen]; intros [=]. exists s.
  split; [done|]. split; [|done]. destruct (errs s); [done|simpl in *; lia].
Qed.

Lemma NewShader_reordered (MR1 MR2 : MapRange) f1 f2 :
  same_objects f1 f2 →
  same_outcome (@NewShader _ MR1 _ (inl f1)) (@NewShader _ MR2 _ (inl f2)).
Proof.
  intros Hr. pose proof (parse_reordered MR1 MR2 f1 f2 Shader_zero Hr) as He.
  unfold NewShader, res_map.
  destruct (parse f1 Shader_zero) as [s1|] eqn:Hs1,
    (parse f2 Shader_zero) as [s2|]; simpl in *; try done.
  unfold NewShader_result.
  pose proof He as (Hp & Hv & Hu & Hg & Herr).
  assert (length (errs s1) = length (errs s2)) as Hlen by (by rewrite Herr).
  rewrite <- Hlen. destruct (decide (0 < length (errs s1))); simpl; [done|].
  split.
  - unfold sort_groups; repeat split; simpl; rewrite ?sort_Slice_perm; done.
  - intros Hd. apply (proj1 (sort_groups_distinct s1)) in Hd.
    apply sort_groups_equiv.
    + exact He.
    + exact Hd.
    + apply (parse_entries_uniforms_distinct _ _ (NoDup_range MR1 f1) Hs1).
    + destruct (errs s1); [done|simpl in *; lia].
Qed.

(** C9, as amended.  Two runs of [NewShader] on the same source can differ in
    the order in which the map of the package-level objects is walked, and in
    nothing else: both panic, or both return the same syntax error, or both
    return a [ParseError] with the same diagnostics in some order, or both
    return a model; the two models have the same position and the same
    variables in each group, and are one and the same model when no two
    varyings and no two globals have the same name. *)
Theorem NewShader_runs_agree (MR1 MR2 : MapRange) (parsed : File + string) :
  same_outcome (@NewShader _ MR1 _ parsed) (@NewShader _ MR2 _ parsed).
Proof.
  destruct parsed as [f|err]; [|done]. apply NewShader_reordered. by left.
Qed.


(** C1, as amended.  The walk runs to its end on every syntax tree in which
    the struct's object, if a type, has a type specification, no constant has
    more values than names and no variable has an empty name.  When it runs
    to its end it has visited every entry: the diagnostics it leaves are those
    of all the entries, in the order of the walk.  If there is none,
    [NewShader] returns the model of the whole walk with its groups sorted
    and no diagnostic in it; if there is one, it returns a [ParseError] that
    holds them all, and no model. *)
Theorem NewShader_model_or_errors (MR : MapRange) (f : File) :
  (well_formed f → ∃ s, parse f Shader_zero = Done s)
  ∧ ∀ s, parse f Shader_zero = Done s →
         errs s = range_order (Scope_Objects f) ≫= entry_errs
         ∧ ((errs s = []
             ∧ NewShader (inl f) = Done (inl (sort_groups s))
             ∧ errs (sort_groups s) = [])
            ∨ (errs s ≠ []
               ∧ NewShader (inl f)
                 = Done (inr (SemanticError {| pe_errs := errs s |})))).
Proof.
  split; [apply parse_completes|]. intros s Hs. split.
  { unfold parse in Hs. by rewrite (parse_entries_errs _ _ _ Hs). }
  unfold NewShader, res_map, NewShader_result. rewrite Hs. simpl.
  destruct (decide (0 < length (errs s))) as [Hlen|Hlen].
  - right. split; [|done]. intros He. rewrite He in Hlen. simpl in Hlen. lia.
  - left. destruct (errs s); [done|simpl in Hlen; lia].
Qed.

(** C4, as amended.  The position of a model that [NewShader] returns is
    either the zero [variable{}], which is what it is when the source has no
    struct of the reserved name, or a plain variable of type [vec4]; when the
    source has the struct, it is the last field that passes the checks of the
    position, and the zero variable if there is none. *)
Theorem position_zero_or_vec4 (MR : MapRange) (f : File) (m : Shader) :
  NewShader (inl f) = Done (inl m) →
  (position m = variable_zero
   ∨ position m = plain_variable (var_name (position m)) typVec4)
  ∧ (Scope_Objects f !! varyingStructName = None → position m = variable_zero)
  ∧ (∀ n fs,
       Scope_Objects f !! varyingStructName
         = Some {| obj_Kind := Typ; obj_Name := n;
                   obj_Decl := TypeSpec (StructType fs) |} →
       position m
       = default variable_zero
           (position_of <$> last (filter (λ g, is_position_field g = true) fs))).
Proof.
  intros (s & Hs & _ & ->)%NewShader_success. simpl.
  pose proof Hs as Hs'. unfold parse in Hs'.
  destruct (parse_entries_position _ _ _ Hs') as [Hp Hno]. split; [done|].
  split.
  - intros Hnone. apply Hno.
    intros ((i & o) & Hi & Hin)%list_elem_of_fmap. simpl in Hi. subst i.
    rewrite range_order_perm in Hin. apply elem_of_map_to_list in Hin.
    congruence.
  - intros n fs Hsome.
    set (o := {| obj_Kind := Typ; obj_Name := n;
                 obj_Decl := TypeSpec (StructType fs) |}) in *.
    set (rest := map_to_list (delete varyingStructName (Scope_Objects f))).
    assert (range_order (Scope_Objects f) ≡ₚ (varyingStructName, o) :: rest) as P.
    { rewrite range_order_perm. symmetry. by apply map_to_list_delete. }
    assert (varyingStructName ∉ rest.*1) as Hnotin.
    { intros ((i & o') & Hi & Hin)%list_elem_of_fmap. simpl in Hi. subst i.
      apply elem_of_map_to_list in Hin. by rewrite lookup_delete_eq in Hin. }
    assert (NoDup (range_order (Scope_Objects f)).*1) as Hnd.
    { rewrite range_order_perm. apply NoDup_fst_map_to_list. }
    pose proof (parse_entries_perm _ _ P Hnd Shader_zero Shader_zero
                  ltac:(reflexivity)) as He.
    rewrite Hs' in He. cbn [parse_entries parseObject] in He.
    destruct (decide (varyingStructName = varyingStructName)); [|done].
    unfold parseVaryingStruct, o in He. simpl in He.
    destruct (parse_entries rest _) as [s2|] eqn:Hrest; simpl in He; [|done].
    destruct He as [-> _].
    rewrite (proj2 (parse_entries_position _ _ _ Hrest) Hnotin).
    apply (fields_position fs Shader_zero).
Qed.

End results.

(** ** The position among the fields of the struct *)

Section position.
Context `{TS : TypeSystem}.

(** C10.  When several fields of the struct pass all the checks of the
    position, the last of them in the order of the field list is the position
    after the loop: a field that passes sets the position, whatever it was,
    and changes nothing else, so that no diagnostic is recorded. *)
Theorem last_position_field_wins (fields pre post : list Field) (f : Field)
    (sh : Shader) :
  fields = pre ++ f :: post →
  is_position_field f = true →
  Forall (λ g, is_position_field g = false) post →
  position (foldl (λ sh' g, parseVaryingField g sh') sh fields) = position_of f
  ∧ (∃ n, Names f = [n] ∧ position_of f = plain_variable n typVec4)
  ∧ (∀ g s, is_position_field g = true →
            parseVaryingField g s = set_position (position_of g) s).
Proof.
  intros -> Hf Hpost. split; [|split].
  - rewrite fields_position, filter_app, filter_cons, decide_True by done.
    assert (filter (λ g, is_position_field g = true) post = []) as ->.
    { induction Hpost as [|g post Hg _ IH]; [done|].
      rewrite filter_cons, decide_False; [done|]. by rewrite Hg. }
    by rewrite last_snoc.
  - apply is_position_field_spec in Hf as (tag & n & _ & _ & Hn & _).
    exists n. split; [done|]. unfold position_of. by rewrite Hn.
  - intros g s. apply position_field_apply.
Qed.

End position.

(** ** The tag of a field *)

Lemma strip_prefix_Some p s r : strip_prefix p s = Some r ↔ s = p +:+ r.
Proof.
  revert s. induction p as [|a p IH]; intros s; simpl.
  { split; [by intros [= ->]|by intros ->]. }
  destruct s as [|b s]; [done|].
  destruct (decide (a = b)) as [->|Hne].
  - rewrite IH. split; [by intros ->|by intros [= ->]].
  - split; [done|]. intros [= ??]. by subst.
Qed.

Lemma string_length_app s1 s2 :
  String.length (s1 +:+ s2) = String.length s1 + String.length s2.
Proof. induction s1; simpl; [done|]. by f_equal. Qed.

Lemma strip_suffix_Some q s r : strip_suffix q s = Some r ↔ s = r +:+ q.
Proof.
  revert r. induction s as [|a s IH]; intros r.
  - simpl. destruct (decide ("" = q)) as [<-|Hne].
    + split; [by intros [= <-]|]. by destruct r.
    + split; [done|]. destruct r; simpl; [done|done].
  - cbn [strip_suffix]. destruct (decide (String a s = q)) as [<-|Hne].
    + split; [by intros [= <-]|]. intros Heq.
      destruct r as [|b r]; [done|]. exfalso.
      apply (f_equal String.length) in Heq. simpl in Heq.
      rewrite string_length_app in Heq. simpl in Heq. lia.
    + destruct r as [|b r]; simpl.
      * split; [|done]. by destruct (strip_suffix q s).
      * change (String b r +:+ q) with (String b (r +:+ q)).
        specialize (IH r). destruct (strip_suffix q s) as [r'|]; simpl.
        -- split.
           ++ intros [= -> ->]. f_equal. by apply IH.
           ++ intros [= -> Heq]. apply IH in Heq. by simplify_eq.
        -- split; [done|]. intros [= -> Heq]. by apply IH in Heq.
Qed.

(** The text matches the expression when it is a backquote, [kage:], a quoted
    value and a backquote, the value neither empty nor broken by a line
    feed; the submatch is the value. *)
Lemma kageTagRe_grammar tag v :
  kageTagRe tag = Some v
  ↔ tag = kageTag_open +:+ v +:+ kageTag_close ∧ v ≠ "" ∧ has_newline v = false.
Proof.
  unfold kageTagRe. split.
  - destruct (strip_prefix _ _) as [rest|] eqn:Hp; [|done]. simpl.
    destruct (strip_suffix _ _) as [m1|] eqn:Hs; [|done]. simpl.
    destruct (decide (m1 = "")); [done|].
    destruct (has_newline m1) eqn:Hn; [done|]. intros [= <-].
    apply strip_prefix_Some in Hp as ->. by apply strip_suffix_Some in Hs as ->.
  - intros (-> & Hv & Hn).
    rewrite (proj2 (strip_prefix_Some _ _ (v +:+ kageTag_close)) eq_refl). simpl.
    rewrite (proj2 (strip_suffix_Some kageTag_close _ v) eq_refl). simpl.
    rewrite decide_False by done. by rewrite Hn.
Qed.

(** ** One field, one variable, one constant *)

Section declarations.
Context `{TS : TypeSystem}.


(** C5.  A field whose tag does not have the recognised form adds the
    diagnostic [invalid struct tag: ] followed by the text of the tag, and no
    varying.  A field without a tag whose type resolves adds, when the type
    is numeric, one varying of that type for each of its names, in their
    order; when it is not, the diagnostic that names the struct and the
    type. *)
Theorem untagged_and_malformed_fields (f : Field) (sh : Shader) :
  (∀ tag, Tag f = Some tag → kageTagRe (Value tag) = None →
          parseVaryingField f sh
          = addError ("invalid struct tag: " +:+ Value tag) sh)
  ∧ (∀ t, Tag f = None → parseType (Type_ f) = inl t → numeric t = true →
          parseVaryingField f sh
          = {| position := position sh;
               varyings := varyings sh ++ ((λ n, plain_variable n t) <$> Names f);
               uniforms := uniforms sh; globals := globals sh;
               errs := errs sh |})
  ∧ (∀ t, Tag f = None → parseType (Type_ f) = inl t → numeric t = false →
          parseVaryingField f sh
          = addError ("members in VertexOut must be numeric but "
                        +:+ typ_String t) sh).
Proof.
  unfold parseVaryingField. repeat split.
  - by intros tag -> ->.
  - intros t -> -> ->. simpl. apply append_varyings_foldl.
  - by intros t -> -> ->.
Qed.

Lemma ascii_range_upper (c : ascii) :
  Ascii.leb "A" c && Ascii.leb c "Z" = bool_decide (c ∈ upper_letters).
Proof.
  destruct c as [[] [] [] [] [] [] [] []]; vm_compute; reflexivity.
Qed.

Lemma lower_not_upper (c : ascii) : c ∈ lower_letters → c ∉ upper_letters.
Proof.
  unfold lower_letters, upper_letters. simpl. intros Hl Hu.
  repeat (apply elem_of_cons in Hl as [->|Hl];
          [by repeat (apply elem_of_cons in Hu as [Hu|Hu]; [done|]);
              apply elem_of_nil in Hu|]).
  by apply elem_of_nil in Hl.
Qed.

(** C6.  A package-level variable whose type resolves becomes a uniform when
    the first byte of its name is an upper-case letter of ASCII and a global
    when it is anything else, a lower-case letter for one; the rest of the
    name plays no part, and the variable carries no initializer, whatever
    values the declaration has.  When the type does not resolve, the error of
    the resolver is recorded and nothing else changes.  The walk hands every
    object of kind [Var] to this method, but the one of the reserved name. *)
Theorem variable_by_first_letter (name : string) (c : ascii) (tail : string)
    (obj : Object) (v : ValueSpec) (s : Shader) :
  name = String c tail →
  obj_Decl obj = ValueSpecDecl v →
  match parseType (vs_Type v) with
  | inl t =>
      (c ∈ upper_letters →
         parsePackageLevelVariable name obj s
         = Done (append_uniform (plain_variable name t) s))
      ∧ (c ∉ upper_letters →
           parsePackageLevelVariable name obj s
           = Done (append_global (plain_variable name t) s))
      ∧ (c ∈ lower_letters →
           parsePackageLevelVariable name obj s
           = Done (append_global (plain_variable name t) s))
      ∧ var_init (plain_variable name t) = ""
  | inr err => parsePackageLevelVariable name obj s = Done (addError err s)
  end
  ∧ (name ≠ varyingStructName → obj_Kind obj = Var →
       parseObject (name, obj) s = parsePackageLevelVariable name obj s).
Proof.
  intros -> Hdecl. split.
  - unfold parsePackageLevelVariable. rewrite Hdecl.
    destruct (parseType (vs_Type v)) as [t|err]; [|done].
    rewrite ascii_range_upper.
    assert (c ∉ upper_letters →
            (if bool_decide (c ∈ upper_letters)
             then Done (append_uniform (plain_variable (String c tail) t) s)
             else Done (append_global (plain_variable (String c tail) t) s))
            = Done (append_global (plain_variable (String c tail) t) s)) as Hg.
    { intros Hc. by rewrite bool_decide_eq_false_2. }
    repeat split; [|done|].
    + intros Hc. by rewrite bool_decide_eq_true_2.
    + intros Hc. by apply Hg, lower_not_upper.
  - intros Hne Hk. unfold parseObject. rewrite decide_False by done.
    by rewrite Hk.
Qed.



Lemma constantValues_uniforms name t names values i s s' :
  constantValues name t names i values s = Done s' → uniforms s' = uniforms s.
Proof.
  revert i s. induction values as [|v rest IH]; intros i s; simpl.
  { by intros [= ->]. }
  destruct (names !! i) as [n|]; [|done].
  destruct (decide (n ≠ name)); [apply IH|].
  destruct v as [| |b| |]; try (intros Hs; by rewrite (IH _ _ Hs)).
  destruct (decide _); [by intros [= <-]|].
  intros Hs. by rewrite (IH _ _ Hs).
Qed.


End declarations.

(** ** The dump *)

Section dump.
Context `{TS : TypeSystem}.

Lemma constantValues_plain name t names values i s s' :
  constantValues name t names i values s = Done s' →
  Forall plain_global (globals s) → Forall plain_global (globals s').
Proof.
  revert i s. induction values as [|v rest IH]; intros i s; simpl.
  { by intros [= ->]. }
  destruct (names !! i) as [n|]; [|done].
  destruct (decide (n ≠ name)); [apply IH|].
  assert (∀ init, Forall plain_global (globals s) →
            Forall plain_global
              (globals (append_global
                          {| var_name := name; var_typ := t;
                             var_constant := true; var_init := init |} s)))
    as Happ.
  { intros init Hs. simpl. apply Forall_app. split; [done|].
    by repeat constructor. }
  destruct v as [| |b| |]; try (intros Hs ?; by eapply IH, Happ).
  destruct (decide _); [by intros [= <-]|].
  intros Hs ?. by eapply IH, Happ.
Qed.

Lemma parseObject_plain e s s' :
  parseObject e s = Done s' →
  Forall plain_global (globals s) → Forall plain_global (globals s').
Proof.
  destruct e as [name obj]. unfold parseObject.
  destruct (decide (name = varyingStructName)).
  - unfold parseVaryingStruct. destruct (decide _); [by intros [= <-]|].
    destruct (obj_Decl obj) as [t| |]; try done.
    destruct t; try by intros [= <-].
    intros [= <-]. rewrite parseVaryingFields_apply. unfold fields_effect.
    rewrite fields_effect_closed. simpl. by rewrite app_nil_r.
  - destruct (obj_Kind obj); try by intros [= <-].
    + unfold parsePackageLevelConstant.
      destruct (obj_Decl obj) as [|vs|]; try by intros [= <-].
      destruct (parseType _); [|by intros [= <-]].
      apply constantValues_plain.
    + unfold parsePackageLevelVariable.
      destruct (obj_Decl obj) as [|vs|]; try by intros [= <-].
      destruct (parseType _); [|by intros [= <-]].
      destruct name; [done|].
      destruct (_ && _); intros [= <-]; [done|].
      intros Hs. simpl. apply Forall_app. split; [done|].
      by repeat constructor.
Qed.

Lemma parse_entries_plain l s s' :
  parse_entries l s = Done s' →
  Forall plain_global (globals s) → Forall plain_global (globals s').
Proof.
  revert s. induction l as [|e l IH]; intros s; simpl.
  { by intros [= ->]. }
  destruct (parseObject e s) as [s1|] eqn:He; simpl; [|done].
  intros Hs' Hs. eapply IH; [done|]. by eapply parseObject_plain.
Qed.

Lemma string_app_empty_r (s : string) : s +:+ "" = s.
Proof.
  induction s as [|a s IH]; [done|].
  change (String a s +:+ "") with (String a (s +:+ "")). by rewrite IH.
Qed.

Lemma global_line_plain g :
  plain_global g → Dump_global g = global_line g.
Proof.
  unfold plain_global, Dump_global, global_line. intros Hg.
  destruct (var_constant g).
  - destruct (decide (var_init g = "")) as [->|Hne].
    + simpl. by rewrite !string_app_empty_r.
    + by rewrite decide_True by done.
  - rewrite Hg by done. simpl. by rewrite !string_app_empty_r.
Qed.

(** C8, as amended.  The dump of a model that [NewShader] returns is one line
    for each variable, every line closed by a line feed, in the order
    position, varyings, uniforms, globals, each group in the order of the
    model: [var <name> varying <type> // position] for the position,
    [var <name> varying <type>] for a varying, [var <name> uniform <type>]
    for a uniform, [var <name> <type>] for a global that is not a constant,
    and for a constant [const <name> <type> = <initializer>], or
    [const <name> <type>] when no initializer was captured. *)
Theorem Dump_lines_of_model `{MR : MapRange} `{SS : SliceSort} (f : File)
    (m : Shader) :
  NewShader (inl f) = Done (inl m) →
  Dump m = Join (Dump_lines_amended m) newline +:+ newline
  ∧ length (Dump_lines_amended m)
    = 1 + length (varyings m) + length (uniforms m) + length (globals m).
Proof.
  intros (s & Hs & _ & ->)%NewShader_success. split.
  - unfold Dump, Dump_lines, Dump_lines_amended. do 5 f_equal.
    apply Forall_fmap_ext_1. simpl.
    assert (Forall plain_global (globals s)) as Hplain.
    { eapply parse_entries_plain; [exact Hs|]. constructor. }
    rewrite sort_Slice_perm.
    eapply Forall_impl; [exact Hplain|]. intros g. apply global_line_plain.
  - unfold Dump_lines_amended. simpl. rewrite !length_app, !length_fmap. lia.
Qed.

End dump.

(** ** Runs on concrete sources *)

Section concrete.
Import kage.

Abbreviation forward := (NewShader (MR := range_forward)).
Abbreviation backward := (NewShader (MR := range_backward)).

(** The end-to-end scenario of the specification. *)
Example scenario_compiles : forward (inl scenario) = Done (inl scenario_model).
Proof. vm_compute. reflexivity. Qed.

Example scenario_dump :
  Dump scenario_model
  = "var Position varying vec4 // position" +:+ newline
    +:+ "var Texcoord varying vec2" +:+ newline
    +:+ "var Tex uniform vec2" +:+ newline
    +:+ "const Scale float = 2.0" +:+ newline
    +:+ "var counter float" +:+ newline.
Proof. vm_compute. reflexivity. Qed.

(** A constant with more values than names: the index into [vs.Names] runs
    out of range. *)
Example extra_value_panics : forward (inl extra_value) = Panic.
Proof. vm_compute. reflexivity. Qed.

Lemma scenario_well_formed : well_formed scenario.
Proof. unfold well_formed. apply (bool_decide_unpack _). vm_compute. exact I. Defined.


(** C1, the claim as it stands fails: the error of a source that the parser
    rejects is the parser's own, neither a model nor a [ParseError]. *)
Lemma NewShader_syntax_error_is_neither :
  forward (inr "1:1: expected 'package', found 'EOF'")
  = Done (inr (SyntaxError "1:1: expected 'package', found 'EOF'"))
  ∧ ¬ ((∃ m, forward (inr "1:1: expected 'package', found 'EOF'")
             = Done (inl m))
       ∨ (∃ p, pe_errs p ≠ []
               ∧ forward (inr "1:1: expected 'package', found 'EOF'")
                 = Done (inr (SemanticError p)))).
Proof.
  split; [done|]. intros [[m Hm]|(p & _ & Hp)]; simpl in *; congruence.
Qed.

Lemma NewShader_model_or_errors_witness :
  well_formed scenario
  ∧ (∃ s, parse (MR := range_forward) scenario Shader_zero = Done s)
  ∧ parse (MR := range_forward) scenario Shader_zero = Done scenario_model
  ∧ errs scenario_model = []
  ∧ forward (inl scenario) = Done (inl (sort_groups scenario_model)).
Proof.
  assert (parse (MR := range_forward) scenario Shader_zero
          = Done scenario_model) as Hs by (vm_compute; reflexivity).
  split; [exact scenario_well_formed|].
  split; [exact (proj1 (NewShader_model_or_errors range_forward scenario)
                   scenario_well_formed)|].
  split; [exact Hs|]. split; [reflexivity|].
  destruct (proj2 (NewShader_model_or_errors range_forward scenario)
              scenario_model Hs) as [_ [(_ & Hm & _)|[Hne _]]].
  - exact Hm.
  - destruct (Hne eq_refl).
Defined.


(** Nor does the order of the declarations of one name leave the model as it
    is: the map holds the first declaration of a name, so that
    [var A vec2; var A vec3] and [var A vec3; var A vec2] compile to two
    models, each without two variables of one name. *)
Example redeclared_name_keeps_its_first :
  reordered redeclared_A redeclared_A_swapped
  ∧ ∃ m1 m2, forward (inl (scope_of redeclared_A)) = Done (inl m1)
             ∧ forward (inl (scope_of redeclared_A_swapped)) = Done (inl m2)
             ∧ uniforms m1 = [plain_variable "A" Vec2]
             ∧ uniforms m2 = [plain_variable "A" Vec3]
             ∧ distinct_names m1 ∧ distinct_names m2
             ∧ ¬ shader_equiv m1 m2 ∧ Dump m1 ≠ Dump m2.
Proof.
  split.
  - exists redeclared_A_swapped. split; [apply perm_swap|].
    constructor; [by left|]. constructor; [by left|]. constructor.
  - eexists _, _. split; [vm_compute; reflexivity|].
    split; [vm_compute; reflexivity|].
    split; [reflexivity|]. split; [reflexivity|].
    split; [split; constructor|]. split; [split; constructor|].
    split; [|vm_compute; intros [=]].
    intros (_ & _ & Hu & _). simpl in Hu.
    apply Permutation_singleton_l in Hu. discriminate Hu.
Qed.


(** C3, the claim as it stands fails: the three checks are not made one
    beside the other.  A field of two names whose tag has another value than
    [position] gets the diagnostic of the value and not the one of the
    names; a field of two names and of type [vec2] with the tag of the
    position gets the diagnostic of the names and not the one of the
    type. *)
Lemma later_checks_are_skipped :
  (∃ t, Tag other_value = Some t ∧ kageTagRe (Value t) = Some "foo")
  ∧ length (Names other_value) ≠ 1
  ∧ errs (parseVaryingField other_value Shader_zero)
    = ["struct tag value must be position in VertexOut but foo"]
  ∧ ("position members must be one"
     ∉ errs (parseVaryingField other_value Shader_zero))
  ∧ (∃ t, Tag samples.two_names_wrong_type = Some t
          ∧ kageTagRe (Value t) = Some "position")
  ∧ length (Names samples.two_names_wrong_type) ≠ 1
  ∧ parseType (Type_ samples.two_names_wrong_type) = inl Vec2
  ∧ Vec2 ≠ typVec4
  ∧ errs (parseVaryingField samples.two_names_wrong_type Shader_zero)
    = ["position members must be one"]
  ∧ ("position must be vec4 but vec2"
     ∉ errs (parseVaryingField samples.two_names_wrong_type Shader_zero)).
Proof.
  split; [eexists; split; [reflexivity|vm_compute; reflexivity]|].
  split; [simpl; lia|]. split; [vm_compute; reflexivity|].
  split; [vm_compute; intros [[=]|[]%elem_of_nil]%elem_of_cons|].
  split; [eexists; split; [reflexivity|vm_compute; reflexivity]|].
  split; [simpl; lia|]. split; [vm_compute; reflexivity|].
  split; [intros [=]|]. split; [vm_compute; reflexivity|].
  vm_compute. intros [[=]|[]%elem_of_nil]%elem_of_cons.
Qed.


(** C4, the claim as it stands fails: a source without the struct compiles,
    and the position of its model is the zero variable, without a name and
    not of type [vec4]. *)
Lemma position_unset_without_struct :
  ∃ m, forward (inl no_struct) = Done (inl m)
       ∧ position m = variable_zero
       ∧ var_name (position m) = ""
       ∧ var_typ (position m) ≠ typVec4.
Proof.
  eexists. split; [vm_compute; reflexivity|].
  split; [reflexivity|]. split; [reflexivity|]. intros [=].
Qed.

Lemma position_zero_or_vec4_witness :
  (position scenario_model = variable_zero
   ∨ position scenario_model
     = plain_variable (var_name (position scenario_model)) typVec4)
  ∧ (Scope_Objects scenario !! varyingStructName = None
     → position scenario_model = variable_zero)
  ∧ (∀ n fs,
       Scope_Objects scenario !! varyingStructName
         = Some {| obj_Kind := Typ; obj_Name := n;
                   obj_Decl := TypeSpec (StructType fs) |} →
       position scenario_model
       = default variable_zero
           (position_of <$> last (filter (λ g, is_position_field g = true) fs))).
Proof.
  apply (position_zero_or_vec4 range_forward scenario scenario_model).
  vm_compute. reflexivity.
Defined.

Lemma untagged_and_malformed_fields_witness :
  parseVaryingField malformed Shader_zero
  = addError "invalid struct tag: `json:x`" Shader_zero
  ∧ varyings (parseVaryingField two_varyings Shader_zero)
    = [plain_variable "U" Vec2; plain_variable "V" Vec2]
  ∧ parseVaryingField boolean_member Shader_zero
    = addError "members in VertexOut must be numeric but bool" Shader_zero.
Proof.
  split; [|split].
  - exact (proj1 (untagged_and_malformed_fields (TS := type_system) malformed Shader_zero)
             {| Kind := token.STRING; Value := "`json:x`" |} eq_refl eq_refl).
  - rewrite (proj1 (proj2 (untagged_and_malformed_fields (TS := type_system) two_varyings Shader_zero))
               Vec2 eq_refl eq_refl eq_refl).
    reflexivity.
  - exact (proj2 (proj2 (untagged_and_malformed_fields (TS := type_system) boolean_member Shader_zero))
             Bool eq_refl eq_refl eq_refl).
Defined.

Lemma variable_by_first_letter_witness :
  parsePackageLevelVariable "Foo" (var_decl "Foo" "vec2").2 Shader_zero
  = Done (append_uniform (plain_variable "Foo" Vec2) Shader_zero)
  ∧ parsePackageLevelVariable "foo" (var_decl "foo" "vec2").2 Shader_zero
    = Done (append_global (plain_variable "foo" Vec2) Shader_zero).
Proof.
  split.
  - refine (proj1 (proj1 (variable_by_first_letter (TS := type_system) "Foo" "F" "oo"
              (var_decl "Foo" "vec2").2
              {| vs_Names := ["Foo"]; vs_Type := Ident "vec2"; vs_Values := [] |}
              Shader_zero eq_refl eq_refl)) _).
    apply (bool_decide_unpack _). vm_compute. exact I.
  - refine (proj1 (proj2 (proj1 (variable_by_first_letter (TS := type_system) "foo" "f" "oo"
              (var_decl "foo" "vec2").2
              {| vs_Names := ["foo"]; vs_Type := Ident "vec2"; vs_Values := [] |}
              Shader_zero eq_refl eq_refl))) _).
    apply (bool_decide_unpack _). vm_compute. exact I.
Defined.


(** C8, the claim as it stands fails: the line of the position does not stop
    at the type. *)
Lemma Dump_position_line_has_comment :
  forward (inl scenario) = Done (inl scenario_model)
  ∧ Dump_lines scenario_model !! 0 = Some "var Position varying vec4 // position"
  ∧ Dump_lines_spec scenario_model !! 0 = Some "var Position varying vec4"
  ∧ Dump scenario_model ≠ Dump_spec scenario_model.
Proof.
  split; [vm_compute; reflexivity|]. split; [reflexivity|].
  split; [reflexivity|]. vm_compute. intros [=].
Qed.

Lemma Dump_lines_of_model_witness :
  Dump scenario_model
  = Join (Dump_lines_amended scenario_model) newline +:+ newline
  ∧ length (Dump_lines_amended scenario_model)
    = 1 + length (varyings scenario_model) + length (uniforms scenario_model)
      + length (globals scenario_model).
Proof.
  apply (Dump_lines_of_model (MR := range_forward) scenario scenario_model).
  vm_compute. reflexivity.
Defined.

(** C9, the claim as it stands fails: two runs on one source that walk the
    map in different orders report its two diagnostics in different
    orders. *)
Lemma two_runs_two_orders :
  forward (inl two_unknown_types)
  = Done (inr (SemanticError
                 {| pe_errs := ["unexpected type: foo"; "unexpected type: bar"] |}))
  ∧ backward (inl two_unknown_types)
    = Done (inr (SemanticError
                   {| pe_errs := ["unexpected type: bar"; "unexpected type: foo"] |}))
  ∧ forward (inl two_unknown_types) ≠ backward (inl two_unknown_types).
Proof.
  split; [vm_compute; reflexivity|]. split; [vm_compute; reflexivity|].
  vm_compute. intros [=].
Qed.

Lemma last_position_field_wins_witness :
  position (foldl (λ sh' g, parseVaryingField g sh') Shader_zero two_positions)
  = plain_variable "Second" Vec4
  ∧ errs (foldl (λ sh' g, parseVaryingField g sh') Shader_zero two_positions) = [].
Proof.
  split; [|reflexivity].
  rewrite (proj1 (last_position_field_wins (TS := type_system) two_positions
             [ mkField ["First"] (Ident "vec4") (tag "position");
               mkField ["Texcoord"] (Ident "vec2") None ]
             [ mkField ["Color"] (Ident "vec4") None ]
             (mkField ["Second"] (Ident "vec4") (tag "position"))
             Shader_zero eq_refl eq_refl
             ltac:(repeat constructor))).
  reflexivity.
Defined.

End concrete.


(** * More of the package *)

(** ** Panics *)

Section panics.
Context `{TS : TypeSystem}.

Lemma bad_literal_Lit b :
  bad_literal (Lit b) ↔ Kind b ≠ token.INT ∧ Kind b ≠ token.FLOAT.
Proof.
  split; [by intros (? & [= <-] & ?)|]. intros ?. by exists b.
Qed.

Lemma constantValues_panics name t names values i s :
  i ≤ length names →
  constantValues name t names i values s = Panic
  ↔ length names < i + length values
    ∧ ∀ k e, names !! (i + k) = Some name → values !! k = Some e →
             ¬ bad_literal e.
Proof.
  revert i s. induction values as [|e0 rest IH]; intros i s Hi; simpl.
  { split; [done|]. intros [? _]. lia. }
  destruct (names !! i) as [n|] eqn:Hn.
  2: { apply lookup_ge_None in Hn. split; [|done]. intros _. split; [lia|].
       intros k e Hk. apply lookup_lt_Some in Hk. lia. }
  apply lookup_lt_Some in Hn as Hlt.
  assert (∀ s', constantValues name t names (S i) rest s' = Panic
            ↔ length names < i + S (length rest)
              ∧ ∀ k e, names !! (i + S k) = Some name → rest !! k = Some e →
                       ¬ bad_literal e) as Hrest.
  { intros s'. rewrite (IH (S i) s') by lia.
    replace (S i + length rest) with (i + S (length rest)) by lia.
    split; intros [? Hk]; (split; [done|]); intros k e;
      [replace (i + S k) with (S i + k) by lia
      |replace (S i + k) with (i + S k) by lia]; apply Hk. }
  assert ((∀ k e, names !! (i + S k) = Some name → rest !! k = Some e →
                  ¬ bad_literal e)
          → n ≠ name ∨ ¬ bad_literal e0
          → ∀ k e, names !! (i + k) = Some name → (e0 :: rest) !! k = Some e →
                   ¬ bad_literal e) as Hcons.
  { intros Hk H0 [|k] e; [|apply Hk]. rewrite Nat.add_0_r, Hn.
    intros [= ->] [= <-]. by destruct H0. }
  assert ((∀ k e, names !! (i + k) = Some name → (e0 :: rest) !! k = Some e →
                  ¬ bad_literal e)
          → ∀ k e, names !! (i + S k) = Some name → rest !! k = Some e →
                   ¬ bad_literal e) as Htail.
  { intros Hk k e. apply (Hk (S k)). }
  destruct (decide (n ≠ name)) as [Hne|Heq%dec_stable].
  { rewrite Hrest. split; intros [? Hk]; (split; [done|]).
    - apply Hcons; [done|by left].
    - by apply Htail. }
  subst n.
  assert (¬ bad_literal e0 →
          ∀ s', constantValues name t names (S i) rest s' = Panic
                ↔ length names < i + S (length rest)
                  ∧ ∀ k e, names !! (i + k) = Some name →
                           (e0 :: rest) !! k = Some e → ¬ bad_literal e)
    as Hgood.
  { intros H0 s'. rewrite Hrest. split; intros [? Hk]; (split; [done|]).
    - apply Hcons; [done|by right].
    - by apply Htail. }
  destruct e0 as [| |b| |];
    try (apply Hgood; by intros (? & [=] & _)).
  destruct (decide (Kind b ≠ token.INT ∧ Kind b ≠ token.FLOAT)) as [Hbad|Hok].
  - split; [done|]. intros [_ Hk]. destruct (Hk 0 (Lit b)); [|done|].
    + by rewrite Nat.add_0_r.
    + by apply bad_literal_Lit.
  - apply Hgood. by rewrite bad_literal_Lit.
Qed.

Lemma parseObject_panics (name : string) (obj : Object) (s : Shader) :
  parseObject (name, obj) s = Panic ↔ object_panics name obj.
Proof.
  unfold parseObject, object_panics.
  destruct (decide (name = varyingStructName)) as [Hv|Hv].
  - unfold parseVaryingStruct.
    destruct (decide (obj_Kind obj ≠ Typ)) as [Hk|Hk%dec_stable].
    + split; [done|]. intros [(_ & ? & _)|[(? & _)|(? & _)]]; done.
    + destruct (obj_Decl obj) as [t| |] eqn:Hd.
      * split.
        -- by destruct t.
        -- intros [(_ & _ & Hno)|[(? & _)|(? & _)]]; try done.
           by destruct (Hno t).
      * split; [|done]. intros _. left. by repeat split.
      * split; [|done]. intros _. left. by repeat split.
  - destruct (obj_Kind obj) eqn:Hk;
      try (split; [done|];
           intros [(? & _)|[(_ & ? & _)|(_ & ? & _)]]; done).
    + unfold parsePackageLevelConstant.
      destruct (obj_Decl obj) as [|vs|] eqn:Hd.
      1,3: split; [done|];
           intros [(? & _)|[(_ & ? & _)|(_ & _ & ? & ? & ? & _)]]; done.
      destruct (parseType (vs_Type vs)) as [t|err] eqn:Hty.
      2: { split; [done|].
           intros [(? & _)|[(_ & ? & _)|(_ & _ & ? & ? & [= <-] & ? & _)]];
             try done. congruence. }
      rewrite constantValues_panics by lia. simpl. split.
      * intros [Hlen Hno]. right. right. repeat split; try done.
        exists vs, t. repeat split; try done.
      * intros [(? & _)|[(_ & ? & _)|(_ & _ & vs' & t' & [= <-] & _ & Hlen & Hno)]];
          try done.
    + unfold parsePackageLevelVariable.
      destruct (obj_Decl obj) as [|vs|] eqn:Hd.
      1,3: split; [done|];
           intros [(? & _)|[(_ & _ & _ & ? & ? & ? & _)|(_ & ? & _)]]; done.
      destruct (parseType (vs_Type vs)) as [t|err] eqn:Hty.
      2: { split; [done|].
           intros [(? & _)|[(_ & _ & _ & ? & ? & [= <-] & ?)|(_ & ? & _)]];
             try done. congruence. }
      destruct name as [|c tail].
      * split; [|done]. intros _. right. left. repeat split; try done.
        by exists vs, t.
      * split; [by destruct (_ && _)|].
        intros [(? & _)|[(_ & _ & ? & _)|(_ & ? & _)]]; done.
Qed.

(** X1.  The walk panics on an object, whatever the state it has reached,
    exactly in three cases: the object of the reserved name is a type that
    has no type specification; a variable has an empty name and a type that
    resolves; a constant whose type resolves has more values than names, and
    no value bound to its name is a literal of another kind than integer or
    floating point (which would end the method with its diagnostic before
    the index into the names runs out). *)
Theorem object_panics_exactly (name : string) (obj : Object) (s : Shader) :
  parseObject (name, obj) s = Panic ↔ object_panics name obj.
Proof. apply parseObject_panics. Qed.

Lemma parse_entries_panics l s :
  parse_entries l s = Panic ↔ ∃ e, e ∈ l ∧ object_panics e.1 e.2.
Proof.
  revert s. induction l as [|[name obj] l IH]; intros s; simpl.
  { split; [done|]. by intros (e & ?%elem_of_nil & _). }
  pose proof (parseObject_panics name obj s) as Hobj.
  unfold parseObject in Hobj.
  destruct (if decide (name = varyingStructName) then _ else _) as [s1|];
    simpl.
  - rewrite IH. split.
    + intros (e & ? & ?). exists e. split; [by right|done].
    + intros (e & [->|Hin]%elem_of_cons & He).
      * by apply Hobj in He.
      * by exists e.
  - split; [|done]. intros _. exists (name, obj). split; [left|by apply Hobj].
Qed.

(** X2.  [NewShader] panics exactly when the map holds an object on which
    the walk panics: neither the order of the walk nor what the other
    objects are plays a part, and the diagnostics recorded before the panic
    are lost with it. *)
Theorem NewShader_panics_exactly `{MR : MapRange} `{SS : SliceSort}
    (f : File) :
  NewShader (inl f) = Panic
  ↔ ∃ name obj, Scope_Objects f !! name = Some obj ∧ object_panics name obj.
Proof.
  unfold NewShader, res_map, parse.
  destruct (parse_entries _ _) as [s|] eqn:Hs; simpl.
  - split; [done|]. intros (name & obj & Hin & Hp).
    assert (parse_entries (range_order (Scope_Objects f)) Shader_zero = Panic)
      as Hpanic; [|congruence].
    apply parse_entries_panics. exists (name, obj). split; [|done].
    rewrite range_order_perm. by apply elem_of_map_to_list.
  - split; [|done]. intros _.
    apply parse_entries_panics in Hs as ([name obj] & Hin & Hp).
    exists name, obj. split; [|done].
    rewrite range_order_perm in Hin. by apply elem_of_map_to_list in Hin.
Qed.

End panics.

(** ** When the compilation succeeds *)

Section success.
Context `{TS : TypeSystem}.

Lemma bind_nil {A B} (g : A → list B) (l : list A) :
  l ≫= g = [] ↔ Forall (λ x, g x = []) l.
Proof.
  induction l as [|x l IH]; csimpl; [by split|].
  rewrite app_nil, IH, Forall_cons. done.
Qed.

Lemma field_errs_nil fld :
  errs (parseVaryingField fld Shader_zero) = [] ↔ field_accepted fld.
Proof.
  unfold field_accepted.
  destruct (is_position_field fld) eqn:Hpos.
  { rewrite position_field_apply by done. simpl. split; [by left|done]. }
  assert (¬ ∃ tag n, Tag fld = Some tag
                     ∧ kageTagRe (Value tag) = Some "position"
                     ∧ Names fld = [n]
                     ∧ parseType (Type_ fld) = inl typVec4) as Hno.
  { rewrite <- is_position_field_spec. by rewrite Hpos. }
  unfold parseVaryingField.
  destruct (Tag fld) as [tag|] eqn:Htag.
  - assert (∀ msg, errs (addError msg Shader_zero) = []
                   ↔ false = true ∨ (Some tag = None ∧ ∃ t,
                        parseType (Type_ fld) = inl t ∧ numeric t = true))
      as Herr.
    { intros msg. simpl. split; [done|]. by intros [|[? _]]. }
    destruct (kageTagRe (Value tag)) as [m1|] eqn:Hre; [|apply Herr].
    destruct (decide (m1 ≠ "position")) as [|Hm%dec_stable]; [apply Herr|].
    subst m1.
    destruct (Names fld) as [|n [|??]] eqn:Hn; [apply Herr| |apply Herr].
    destruct (parseType (Type_ fld)) as [t|err] eqn:Hty.
    2: { simpl. split; [done|]. by intros [|[? _]]. }
    destruct (decide (t ≠ typVec4)) as [|Ht%dec_stable].
    { simpl. split; [done|]. by intros [|[? _]]. }
    subst t. destruct Hno. by exists tag, n.
  - destruct (parseType (Type_ fld)) as [t|err] eqn:Hty.
    2: { simpl. split; [done|]. by intros [|(_ & ? & ? & _)]. }
    destruct (numeric t) eqn:Hnum; simpl.
    + rewrite append_varyings_foldl. simpl. split; [|done].
      intros _. right. split; [done|]. by exists t.
    + split; [done|]. intros [|(_ & t' & [= <-] & ?)]; [done|congruence].
Qed.

Lemma fields_errs fs s :
  errs (foldl (λ sh' g, parseVaryingField g sh') s fs)
  = errs s ++ (fs ≫= λ g, errs (parseVaryingField g Shader_zero)).
Proof.
  rewrite parseVaryingFields_apply. unfold fields_effect.
  by rewrite fields_effect_closed.
Qed.

Lemma fields_varyings fs s :
  varyings (foldl (λ sh' g, parseVaryingField g sh') s fs)
  = varyings s ++ (fs ≫= λ g, varyings (parseVaryingField g Shader_zero)).
Proof.
  rewrite parseVaryingFields_apply. unfold fields_effect.
  by rewrite fields_effect_closed.
Qed.

Lemma fields_uniforms_globals fs s :
  uniforms (foldl (λ sh' g, parseVaryingField g sh') s fs) = uniforms s
  ∧ globals (foldl (λ sh' g, parseVaryingField g sh') s fs) = globals s.
Proof.
  rewrite parseVaryingFields_apply. unfold fields_effect.
  rewrite fields_effect_closed. simpl. by rewrite !app_nil_r.
Qed.

Lemma constantValues_clean name t names values i s :
  i ≤ length names →
  (∃ s', constantValues name t names i values s = Done s' ∧ errs s' = errs s)
  ↔ i + length values ≤ length names
    ∧ ∀ k e, names !! (i + k) = Some name → values !! k = Some e →
             ¬ bad_literal e.
Proof.
  revert i s. induction values as [|e0 rest IH]; intros i s Hi; simpl.
  { split; [|by eexists]. intros _. split; [lia|]. by intros k e _ ?. }
  destruct (names !! i) as [n|] eqn:Hn.
  2: { apply lookup_ge_None in Hn. split; [by intros (? & ? & _)|].
       intros [? _]. lia. }
  apply lookup_lt_Some in Hn as Hlt.
  assert (∀ s1, errs s1 = errs s →
            (∃ s', constantValues name t names (S i) rest s1 = Done s'
                   ∧ errs s' = errs s)
            ↔ i + S (length rest) ≤ length names
              ∧ ∀ k e, names !! (i + S k) = Some name → rest !! k = Some e →
                       ¬ bad_literal e) as Hrest.
  { intros s1 Hs1. rewrite <- Hs1. rewrite (IH (S i) s1) by lia.
    replace (S i + length rest) with (i + S (length rest)) by lia.
    split; intros [? Hk]; (split; [done|]); intros k e;
      [replace (i + S k) with (S i + k) by lia
      |replace (S i + k) with (i + S k) by lia]; apply Hk. }
  assert (∀ P : Prop,
            (P ↔ i + S (length rest) ≤ length names
                 ∧ ∀ k e, names !! (i + S k) = Some name →
                          rest !! k = Some e → ¬ bad_literal e)
            → n ≠ name ∨ ¬ bad_literal e0
            → (P ↔ i + S (length rest) ≤ length names
                   ∧ ∀ k e, names !! (i + k) = Some name →
                            (e0 :: rest) !! k = Some e → ¬ bad_literal e))
    as Hcons.
  { intros P -> H0. split; intros [? Hk]; (split; [done|]).
    - intros [|k] e; [|apply Hk]. rewrite Nat.add_0_r, Hn.
      intros [= ->] [= <-]. by destruct H0.
    - intros k e. apply (Hk (S k)). }
  destruct (decide (n ≠ name)) as [Hne|Heq%dec_stable].
  { apply Hcons; [by apply Hrest|by left]. }
  subst n.
  destruct e0 as [| |b| |];
    try (apply Hcons; [by apply Hrest|right; by intros (? & [=] & _)]).
  destruct (decide (Kind b ≠ token.INT ∧ Kind b ≠ token.FLOAT)) as [Hbad|Hok].
  - split.
    + intros (s' & [= <-] & He). simpl in He.
      apply (f_equal length) in He. rewrite length_app in He. simpl in He. lia.
    + intros [_ Hk]. destruct (Hk 0 (Lit b)); [by rewrite Nat.add_0_r|done|].
      by apply bad_literal_Lit.
  - apply Hcons; [by apply Hrest|right; by rewrite bad_literal_Lit].
Qed.

Lemma parseObject_clean name obj :
  (∃ d, parseObject (name, obj) Shader_zero = Done d ∧ errs d = [])
  ↔ object_accepted name obj.
Proof.
  unfold parseObject, object_accepted.
  destruct (decide (name = varyingStructName)) as [Hv|Hv].
  - unfold parseVaryingStruct.
    destruct (decide (obj_Kind obj ≠ Typ)) as [Hk|Hk%dec_stable].
    { split; [by intros (? & [= <-] & ?)|]. by intros [? _]. }
    destruct (obj_Decl obj) as [t| |].
    2,3: split; [by intros (? & ? & _)|by intros (_ & ? & ? & _)].
    destruct t as [| | |fs|];
      try (split; [by intros (? & [= <-] & ?)|by intros (_ & ? & ? & _)]).
    split.
    + intros (d & [= <-] & He). split; [done|]. exists fs. split; [done|].
      rewrite fields_errs in He. simpl in He. apply bind_nil in He.
      eapply Forall_impl; [exact He|]. intros fld. apply field_errs_nil.
    + intros (_ & fs' & [= <-] & Hfs). eexists. split; [done|].
      rewrite fields_errs. simpl. apply bind_nil.
      eapply Forall_impl; [exact Hfs|]. intros fld. apply field_errs_nil.
  - destruct (obj_Kind obj); try (split; [done|by eexists]).
    + unfold parsePackageLevelConstant.
      destruct (obj_Decl obj) as [|vs|].
      1,3: split; [by intros (? & [= <-] & ?)|by intros (? & ? & ? & _)].
      destruct (parseType (vs_Type vs)) as [t|err] eqn:Hty.
      2: { split; [by intros (? & [= <-] & ?)|].
           intros (? & ? & [= <-] & ? & _). congruence. }
      pose proof (constantValues_clean name t (vs_Names vs) (vs_Values vs) 0
                    Shader_zero ltac:(lia)) as Hc.
      simpl in Hc. rewrite Hc. split.
      * intros [? ?]. by exists vs, t.
      * by intros (vs' & t' & [= <-] & _ & ? & ?).
    + unfold parsePackageLevelVariable.
      destruct (obj_Decl obj) as [|vs|].
      1,3: split; [by intros (? & [= <-] & ?)|by intros (_ & ? & ? & ? & _)].
      destruct (parseType (vs_Type vs)) as [t|err] eqn:Hty.
      2: { split; [by intros (? & [= <-] & ?)|].
           intros (_ & ? & ? & [= <-] & ?). congruence. }
      destruct name as [|c tail].
      * split; [by intros (? & ? & _)|by intros [? _]].
      * split.
        -- intros _. split; [done|]. by exists vs, t.
        -- intros _. destruct (_ && _); by eexists.
Qed.

Lemma parse_entries_clean l s :
  (∃ s', parse_entries l s = Done s' ∧ errs s' = errs s)
  ↔ Forall (λ e, object_accepted e.1 e.2) l.
Proof.
  revert s. induction l as [|[name obj] l IH]; intros s.
  { simpl. split; [done|by eexists]. }
  cbn [parse_entries]. rewrite Forall_cons. cbn [fst snd].
  rewrite <- parseObject_clean, <- (IH s).
  destruct (parseObject_effect (name, obj)) as (r & Hr & _).
  rewrite (Hr s), (Hr Shader_zero).
  destruct r as [d|]; simpl.
  2: { split; [by intros (? & ? & _)|by intros [(? & ? & _) _]]. }
  split.
  - intros (s' & Hs' & He).
    pose proof (parse_entries_errs _ _ _ Hs') as Herrs. simpl in Herrs.
    rewrite Herrs, <- app_assoc in He.
    apply (f_equal length) in He as Hlen. rewrite !length_app in Hlen.
    assert (e_errs d = []) as Hd
      by (destruct (e_errs d); [done|simpl in Hlen; lia]).
    assert (l ≫= entry_errs = []) as Hl
      by (destruct (l ≫= entry_errs); [done|simpl in Hlen; lia]).
    split; [by eexists|].
    apply (proj2 (IH s)), (proj1 (IH (apply_effect d s))).
    exists s'. split; [done|]. rewrite Herrs, Hl. simpl. by rewrite app_nil_r.
  - intros [(d' & [= <-] & Hd) (s2 & Hs2 & He2)].
    destruct (proj2 (IH (apply_effect d s))) as (s3 & Hs3 & He3).
    { apply (proj1 (IH s)). by exists s2. }
    exists s3. split; [done|]. rewrite He3. simpl. simpl in Hd.
    by rewrite Hd, app_nil_r.
Qed.

Lemma succeeds_iff_accepted `{MR : MapRange} `{SS : SliceSort} (f : File) :
  (∃ m, NewShader (inl f) = Done (inl m))
  ↔ map_Forall object_accepted (Scope_Objects f).
Proof.
  rewrite map_Forall_to_list.
  assert (Forall (λ e, object_accepted e.1 e.2) (range_order (Scope_Objects f))
          ↔ Forall (uncurry object_accepted) (map_to_list (Scope_Objects f)))
    as <-.
  { rewrite range_order_perm. apply Forall_proper; [|done]. by intros [??]. }
  rewrite <- (parse_entries_clean _ Shader_zero). split.
  - intros [m (s & Hs & He & _)%NewShader_success]. by exists s.
  - intros (s & Hs & He). exists (sort_groups s).
    unfold NewShader, res_map, NewShader_result, parse. rewrite Hs. simpl.
    simpl in He. rewrite He. simpl. done.
Qed.

(** X3.  [NewShader] returns a model exactly when every object of the map is
    accepted: the object of the reserved name is a struct type all of whose
    fields either pass the checks of the position or have no tag and a
    numeric type; every other variable has a name and a type that resolves;
    every other constant has a type that resolves, no more values than
    names, and no value bound to its name that is a literal of another kind
    than integer or floating point.  Objects of any other kind are accepted
    as they are. *)
Theorem NewShader_succeeds_exactly `{MR : MapRange} `{SS : SliceSort}
    (f : File) :
  (∃ m, NewShader (inl f) = Done (inl m))
  ↔ map_Forall object_accepted (Scope_Objects f).
Proof. apply succeeds_iff_accepted. Qed.

End success.

(** ** What the model holds *)

Section membership.
Context `{TS : TypeSystem}.

Lemma parse_entries_collected l s s' :
  parse_entries l s = Done s' →
  varyings s' = varyings s ++ (l ≫= entry_varyings)
  ∧ uniforms s' = uniforms s ++ (l ≫= entry_uniforms)
  ∧ globals s' = globals s ++ (l ≫= entry_globals).
Proof.
  revert s. induction l as [|e l IH]; intros s Hs; simpl in *.
  { simplify_eq. by rewrite !app_nil_r. }
  destruct (parseObject_effect e) as (r & Hr & _).
  unfold entry_varyings at 1, entry_uniforms at 1, entry_globals at 1.
  rewrite (Hr s) in Hs. rewrite (Hr Shader_zero).
  destruct r as [d|]; simpl in *; [|done].
  destruct (IH _ Hs) as (-> & -> & ->). simpl. by rewrite <- !app_assoc.
Qed.

Lemma elem_of_range_bind `{MR : MapRange} {A} (g : string * Object → list A)
    (f : File) (x : A) :
  x ∈ range_order (Scope_Objects f) ≫= g
  ↔ ∃ name obj, Scope_Objects f !! name = Some obj ∧ x ∈ g (name, obj).
Proof.
  rewrite list_elem_of_bind. split.
  - intros ([name obj] & Hx & Hin). exists name, obj. split; [|done].
    rewrite range_order_perm in Hin. by apply elem_of_map_to_list in Hin.
  - intros (name & obj & Hin & Hx). exists (name, obj). split; [done|].
    rewrite range_order_perm. by apply elem_of_map_to_list.
Qed.

Lemma tagged_field_no_varying fld s :
  is_Some (Tag fld) →
  varyings (parseVaryingField fld s) = varyings s.
Proof.
  intros [tag Htag]. unfold parseVaryingField. rewrite Htag.
  repeat case_match; done.
Qed.

Lemma field_varyings_spec fld x :
  x ∈ varyings (parseVaryingField fld Shader_zero)
  ↔ Tag fld = None
    ∧ ∃ n t, n ∈ Names fld ∧ parseType (Type_ fld) = inl t
             ∧ numeric t = true ∧ x = plain_variable n t.
Proof.
  destruct (Tag fld) as [tag|] eqn:Htag.
  { rewrite tagged_field_no_varying by (by rewrite Htag). simpl.
    split; [by intros ?%elem_of_nil|by intros [? _]]. }
  unfold parseVaryingField. rewrite Htag.
  destruct (parseType (Type_ fld)) as [t|err] eqn:Hty.
  2: { simpl. split; [by intros ?%elem_of_nil|].
       by intros (_ & ? & ? & _ & ? & _). }
  destruct (numeric t) eqn:Hnum; simpl.
  - rewrite append_varyings_foldl. simpl. rewrite list_elem_of_fmap. split.
    + intros (n & -> & Hn). split; [done|]. by exists n, t.
    + intros (_ & n & t' & Hn & [= <-] & _ & ->). by exists n.
  - split; [by intros ?%elem_of_nil|].
    intros (_ & ? & t' & _ & [= <-] & ? & _). congruence.
Qed.

Lemma entry_varyings_spec name obj x :
  x ∈ entry_varyings (name, obj)
  ↔ name = varyingStructName ∧ obj_Kind obj = Typ
    ∧ ∃ fs fld, obj_Decl obj = TypeSpec (StructType fs) ∧ fld ∈ fs
                ∧ x ∈ varyings (parseVaryingField fld Shader_zero).
Proof.
  destruct (decide (name = varyingStructName)) as [Hv|Hv].
  2: { destruct (parseObject_effect (name, obj)) as (r & Hr & Hpl & _).
       unfold entry_varyings. rewrite (Hr Shader_zero).
       split; [|by intros [? _]].
       destruct r as [d|]; simpl; [|by intros ?%elem_of_nil].
       destruct (Hpl Hv d eq_refl) as [_ ->]. by intros ?%elem_of_nil. }
  unfold entry_varyings, parseObject. rewrite decide_True by done.
  unfold parseVaryingStruct.
  destruct (decide (obj_Kind obj ≠ Typ)) as [Hk|Hk%dec_stable].
  { simpl. split; [by intros ?%elem_of_nil|by intros (_ & ? & _)]. }
  destruct (obj_Decl obj) as [t| |].
  2,3: split; [by intros ?%elem_of_nil|by intros (_ & _ & ? & ? & ? & _)].
  destruct t as [| | |fs|];
    try (simpl; split; [by intros ?%elem_of_nil
                       |by intros (_ & _ & ? & ? & ? & _)]).
  rewrite fields_varyings. simpl. rewrite list_elem_of_bind. split.
  - intros (fld & Hx & Hin). repeat split; try done. by exists fs, fld.
  - intros (_ & _ & fs' & fld & [= <-] & Hin & Hx). by exists fld.
Qed.

Lemma constantValues_or_error_uniforms name obj s d :
  parsePackageLevelConstant name obj s = Done d → uniforms d = uniforms s.
Proof.
  unfold parsePackageLevelConstant.
  destruct (obj_Decl obj) as [|vs|]; try by intros [= <-].
  destruct (parseType _); [|by intros [= <-]].
  apply constantValues_uniforms.
Qed.

Lemma entry_uniforms_spec name obj x :
  x ∈ entry_uniforms (name, obj)
  ↔ name ≠ varyingStructName ∧ obj_Kind obj = Var
    ∧ ∃ vs t c tail, obj_Decl obj = ValueSpecDecl vs
                     ∧ parseType (vs_Type vs) = inl t
                     ∧ name = String c tail ∧ c ∈ upper_letters
                     ∧ x = plain_variable name t.
Proof.
  unfold entry_uniforms.
  destruct (parseObject (name, obj) Shader_zero) as [d|] eqn:Hd.
  2: { split; [by intros ?%elem_of_nil|].
       intros (Hv & Hk & vs & t & c & tail & Hdecl & Hty & -> & _).
       unfold parseObject in Hd. rewrite decide_False, Hk in Hd by done.
       unfold parsePackageLevelVariable in Hd. rewrite Hdecl, Hty in Hd.
       by destruct (_ && _). }
  unfold parseObject in Hd.
  destruct (decide (name = varyingStructName)) as [Hv|Hv].
  { assert (uniforms d = []) as ->; [|split; [by intros ?%elem_of_nil
                                            |by intros [? _]]].
    unfold parseVaryingStruct in Hd.
    destruct (decide _); [by simplify_eq|].
    destruct (obj_Decl obj) as [t| |]; try done.
    destruct t; simplify_eq; try done.
    apply fields_uniforms_globals. }
  destruct (obj_Kind obj) eqn:Hk;
    try (simplify_eq; simpl; split; [by intros ?%elem_of_nil
                                    |by intros (_ & ? & _)]).
  - apply constantValues_or_error_uniforms in Hd. rewrite Hd. simpl.
    split; [by intros ?%elem_of_nil|by intros (_ & ? & _)].
  - unfold parsePackageLevelVariable in Hd.
    destruct (obj_Decl obj) as [|vs|]; simplify_eq; simpl;
      try (split; [by intros ?%elem_of_nil
                  |by intros (_ & _ & ? & ? & ? & ? & ? & _)]).
    destruct (parseType (vs_Type vs)) as [t|err] eqn:Hty; simplify_eq; simpl.
    2: { split; [by intros ?%elem_of_nil|].
         intros (_ & _ & ? & ? & ? & ? & [= <-] & ? & _). congruence. }
    destruct name as [|c tail]; [done|].
    rewrite ascii_range_upper in Hd.
    destruct (bool_decide (c ∈ upper_letters)) eqn:Hc; simplify_eq; simpl.
    + apply bool_decide_eq_true in Hc. rewrite list_elem_of_singleton. split.
      * intros ->. repeat split; try done. by exists vs, t, c, tail.
      * intros (_ & _ & vs' & t' & c' & tail' & [= <-] & Hty' & _ & _ & ->).
        congruence.
    + apply bool_decide_eq_false in Hc. split; [by intros ?%elem_of_nil|].
      intros (_ & _ & ? & ? & c' & tail' & _ & _ & [= <- <-] & ? & _). done.
Qed.

End membership.

Section groups.
Context `{TS : TypeSystem}.

Lemma constantValues_globals name t names values i s s' :
  constantValues name t names i values s = Done s' →
  errs s' = errs s →
  ∀ x, x ∈ globals s'
       ↔ x ∈ globals s
         ∨ ∃ k e, names !! (i + k) = Some name ∧ values !! k = Some e
                  ∧ x = constant_of name t (init_of e).
Proof.
  revert i s. induction values as [|e0 rest IH]; intros i s; simpl.
  { intros [= <-] _ x. split; [by left|]. by intros [|(? & ? & _ & ? & _)]. }
  destruct (names !! i) as [n|] eqn:Hn; [|done].
  assert (∀ x, (∃ k e, names !! (i + k) = Some name
                       ∧ (e0 :: rest) !! k = Some e
                       ∧ x = constant_of name t (init_of e))
               ↔ (n = name ∧ x = constant_of name t (init_of e0))
                 ∨ ∃ k e, names !! (S i + k) = Some name ∧ rest !! k = Some e
                          ∧ x = constant_of name t (init_of e)) as Hshift.
  { intros x. split.
    - intros ([|k] & e & Hk & He & ->).
      + left. rewrite Nat.add_0_r, Hn in Hk. by simplify_eq/=.
      + right. exists k, e. by replace (S i + k) with (i + S k) by lia.
    - intros [[-> ->]|(k & e & Hk & He & ->)].
      + exists 0, e0. by rewrite Nat.add_0_r.
      + exists (S k), e. by replace (i + S k) with (S i + k) by lia. }
  destruct (decide (n ≠ name)) as [Hne|Heq%dec_stable].
  { intros Hs He x. rewrite (IH _ _ Hs He x), Hshift. split.
    - intros [?|?]; [by left|right; by right].
    - intros [?|[[? _]|?]]; [by left|done|by right]. }
  subst n.
  assert (∀ init, init = init_of e0 →
            constantValues name t names (S i) rest
              (append_global {| var_name := name; var_typ := t;
                                var_constant := true; var_init := init |} s)
            = Done s' →
            errs s' = errs s →
            ∀ x, x ∈ globals s'
                 ↔ x ∈ globals s
                   ∨ ∃ k e, names !! (i + k) = Some name
                            ∧ (e0 :: rest) !! k = Some e
                            ∧ x = constant_of name t (init_of e)) as Happ.
  { intros init -> Hs He x. rewrite (IH _ _ Hs He x), Hshift. simpl.
    rewrite elem_of_app, list_elem_of_singleton. unfold constant_of. split.
    - intros [[?| ->]|?]; [by left|right; by left|right; by right].
    - intros [?|[[_ ->]|?]]; [left; by left|left; by right|by right]. }
  destruct e0 as [| |b| |]; try by apply Happ.
  destruct (decide _); [|by apply Happ].
  intros [= <-] He. simpl in He. apply (f_equal length) in He.
  rewrite length_app in He. simpl in He. lia.
Qed.

Lemma entry_globals_spec name obj x :
  object_accepted name obj →
  x ∈ entry_globals (name, obj)
  ↔ name ≠ varyingStructName
    ∧ ((obj_Kind obj = Var
        ∧ ∃ vs t c tail, obj_Decl obj = ValueSpecDecl vs
                         ∧ parseType (vs_Type vs) = inl t
                         ∧ name = String c tail ∧ (c ∉ upper_letters)
                         ∧ x = plain_variable name t)
       ∨ (obj_Kind obj = Con
          ∧ ∃ vs t k e, obj_Decl obj = ValueSpecDecl vs
                        ∧ parseType (vs_Type vs) = inl t
                        ∧ vs_Names vs !! k = Some name
                        ∧ vs_Values vs !! k = Some e
                        ∧ x = constant_of name t (init_of e))).
Proof.
  intros (d & Hd & He)%parseObject_clean.
  unfold entry_globals. rewrite Hd. unfold parseObject in Hd.
  destruct (decide (name = varyingStructName)) as [Hv|Hv].
  { assert (globals d = []) as ->; [|split; [by intros ?%elem_of_nil
                                           |by intros [? _]]].
    unfold parseVaryingStruct in Hd.
    destruct (decide _); [by simplify_eq|].
    destruct (obj_Decl obj) as [t| |]; try done.
    destruct t; simplify_eq; try done.
    apply fields_uniforms_globals. }
  destruct (obj_Kind obj) eqn:Hk;
    try (simplify_eq; simpl; split;
         [by intros ?%elem_of_nil|by intros (_ & [[? _]|[? _]])]).
  - unfold parsePackageLevelConstant in Hd.
    destruct (obj_Decl obj) as [|vs|] eqn:Hdecl; simplify_eq; try done.
    destruct (parseType (vs_Type vs)) as [t|err] eqn:Hty; simplify_eq;
      try done.
    rewrite (constantValues_globals _ _ _ _ _ _ _ Hd He x). simpl. split.
    + intros [?%elem_of_nil|(k & e & ? & ? & ->)]; [done|].
      split; [done|]. right. split; [done|]. by exists vs, t, k, e.
    + intros (_ & [[? _]|(_ & vs' & t' & k & e & [= <-] & Hty' & ? & ? & ->)]);
        [done|].
      assert (t' = t) as -> by congruence. right. by exists k, e.
  - unfold parsePackageLevelVariable in Hd.
    destruct (obj_Decl obj) as [|vs|]; simplify_eq; try done.
    destruct (parseType (vs_Type vs)) as [t|err] eqn:Hty; simplify_eq;
      try done.
    destruct name as [|c tail]; [done|].
    rewrite ascii_range_upper in Hd.
    destruct (bool_decide (c ∈ upper_letters)) eqn:Hc; simplify_eq; simpl.
    + apply bool_decide_eq_true in Hc. split; [by intros ?%elem_of_nil|].
      intros (_ & [(_ & ? & ? & c' & tail' & _ & _ & [= <- <-] & ? & _)
                  |[? _]]); done.
    + apply bool_decide_eq_false in Hc. rewrite list_elem_of_singleton. split.
      * intros ->. split; [done|]. left. split; [done|].
        by exists vs, t, c, tail.
      * intros (_ & [(_ & vs' & t' & c' & tail' & [= <-] & Hty' & _ & _ & ->)
                    |[? _]]); [|done].
        congruence.
Qed.

Context `{MR : MapRange} `{SS : SliceSort}.

Lemma success_accepts f m name obj :
  NewShader (inl f) = Done (inl m) →
  Scope_Objects f !! name = Some obj → object_accepted name obj.
Proof.
  intros Hm Hin.
  assert (map_Forall object_accepted (Scope_Objects f)) as Hall.
  { apply succeeds_iff_accepted. by exists m. }
  by apply Hall.
Qed.

Lemma success_groups f m :
  NewShader (inl f) = Done (inl m) →
  varyings m ≡ₚ range_order (Scope_Objects f) ≫= entry_varyings
  ∧ uniforms m ≡ₚ range_order (Scope_Objects f) ≫= entry_uniforms
  ∧ globals m ≡ₚ range_order (Scope_Objects f) ≫= entry_globals.
Proof.
  intros (s & Hs & _ & ->)%NewShader_success. unfold parse in Hs.
  destruct (parse_entries_collected _ _ _ Hs) as (Hv & Hu & Hg).
  simpl in *. rewrite !sort_Slice_perm. by rewrite Hv, Hu, Hg.
Qed.

Lemma struct_fields_spec f fld :
  fld ∈ struct_fields f
  ↔ ∃ obj fs, Scope_Objects f !! varyingStructName = Some obj
              ∧ obj_Kind obj = Typ
              ∧ obj_Decl obj = TypeSpec (StructType fs) ∧ fld ∈ fs.
Proof.
  unfold struct_fields.
  destruct (Scope_Objects f !! varyingStructName) as [obj|].
  2: { split; [by intros ?%elem_of_nil|by intros (? & ? & ? & _)]. }
  split.
  - destruct (obj_Kind obj) eqn:Hk; try by intros ?%elem_of_nil.
    destruct (obj_Decl obj) as [[| | |fs|]| |] eqn:Hd;
      try by intros ?%elem_of_nil.
    intros Hin. by exists obj, fs.
  - intros (obj' & fs & [= <-] & -> & -> & Hin). done.
Qed.

(** X4.  The varyings of a model that [NewShader] returns are the names of
    the fields of the struct that have no tag, each with the type of its
    field, which is numeric: nothing else is a varying, and no such name is
    left out. *)
Theorem varyings_of_model (f : File) (m : Shader) (x : variable) :
  NewShader (inl f) = Done (inl m) →
  x ∈ varyings m
  ↔ ∃ fld n t, fld ∈ struct_fields f ∧ Tag fld = None ∧ n ∈ Names fld
               ∧ parseType (Type_ fld) = inl t ∧ numeric t = true
               ∧ x = plain_variable n t.
Proof.
  intros (Hv & _ & _)%success_groups. rewrite Hv, elem_of_range_bind. split.
  - intros (name & obj & Hin & (-> & Hk & fs & fld & Hd & Hfld
                                 & (Htag & n & t & ? & ? & ? & ->)%field_varyings_spec)
                                 %entry_varyings_spec).
    exists fld, n, t. repeat split; try done.
    apply struct_fields_spec. by exists obj, fs.
  - intros (fld & n & t & (obj & fs & Hin & Hk & Hd & Hfld)%struct_fields_spec
            & Htag & Hn & Hty & Hnum & ->).
    exists varyingStructName, obj. split; [done|].
    apply entry_varyings_spec. repeat split; try done.
    exists fs, fld. repeat split; try done.
    apply field_varyings_spec. split; [done|]. by exists n, t.
Qed.

(** X5.  The uniforms of a model that [NewShader] returns are the
    package-level variables, other than one of the reserved name, whose name
    starts with an upper-case letter of ASCII, each a plain variable of the
    type its declaration resolves to; no two of them have the same name. *)
Theorem uniforms_of_model (f : File) (m : Shader) (x : variable) :
  NewShader (inl f) = Done (inl m) →
  (x ∈ uniforms m
   ↔ ∃ name obj vs t c tail,
       Scope_Objects f !! name = Some obj
       ∧ name ≠ varyingStructName ∧ obj_Kind obj = Var
       ∧ obj_Decl obj = ValueSpecDecl vs ∧ parseType (vs_Type vs) = inl t
       ∧ name = String c tail ∧ c ∈ upper_letters
       ∧ x = plain_variable name t)
  ∧ NoDup (var_name <$> uniforms m).
Proof.
  intros Hm. split.
  - destruct (success_groups _ _ Hm) as (_ & Hu & _).
    rewrite Hu, elem_of_range_bind. split.
    + intros (name & obj & Hin
              & (? & ? & vs & t & c & tail & ? & ? & ? & ? & ?)%entry_uniforms_spec).
      by exists name, obj, vs, t, c, tail.
    + intros (name & obj & vs & t & c & tail & Hin & ? & ? & ? & ? & ? & ? & ?).
      exists name, obj. split; [done|]. apply entry_uniforms_spec.
      repeat split; try done. by exists vs, t, c, tail.
  - apply NewShader_success in Hm as (s & Hs & _ & ->). simpl.
    rewrite sort_Slice_perm.
    apply (parse_entries_uniforms_distinct _ _ (NoDup_range MR f) Hs).
Qed.

(** X6.  The globals of a model that [NewShader] returns are, first, the
    package-level variables whose name does not start with an upper-case
    letter of ASCII, as plain variables, and second, for every constant and
    every value bound to its name, a constant of the declared type whose
    initializer is the text of the value when it is a literal and empty when
    it is any other expression; the object of the reserved name gives
    none. *)
Theorem globals_of_model (f : File) (m : Shader) (x : variable) :
  NewShader (inl f) = Done (inl m) →
  x ∈ globals m
  ↔ ∃ name obj vs t,
      Scope_Objects f !! name = Some obj
      ∧ name ≠ varyingStructName
      ∧ obj_Decl obj = ValueSpecDecl vs ∧ parseType (vs_Type vs) = inl t
      ∧ ((obj_Kind obj = Var
          ∧ ∃ c tail, name = String c tail ∧ (c ∉ upper_letters)
                      ∧ x = plain_variable name t)
         ∨ (obj_Kind obj = Con
            ∧ ∃ k e, vs_Names vs !! k = Some name
                     ∧ vs_Values vs !! k = Some e
                     ∧ x = constant_of name t (init_of e))).
Proof.
  intros Hm. destruct (success_groups _ _ Hm) as (_ & _ & Hg).
  rewrite Hg, elem_of_range_bind. split.
  - intros (name & obj & Hin & Hx).
    apply entry_globals_spec in Hx; [|by eapply success_accepts].
    destruct Hx as (Hv & [(Hk & vs & t & c & tail & ? & ? & ? & ? & ?)
                         |(Hk & vs & t & k & e & ? & ? & ? & ? & ?)]).
    + exists name, obj, vs, t. repeat split; try done. left.
      split; [done|]. by exists c, tail.
    + exists name, obj, vs, t. repeat split; try done. right.
      split; [done|]. by exists k, e.
  - intros (name & obj & vs & t & Hin & Hv & Hd & Hty & Hx).
    exists name, obj. split; [done|].
    apply entry_globals_spec; [by eapply success_accepts|].
    split; [done|].
    destruct Hx as [(Hk & c & tail & ? & ? & ?)|(Hk & k & e & ? & ? & ?)].
    + left. split; [done|]. by exists vs, t, c, tail.
    + right. split; [done|]. by exists vs, t, k, e.
Qed.

End groups.

(** ** Objects the walk passes by, and the reserved name *)

Section kinds.
Context `{TS : TypeSystem} `{SS : SliceSort}.

Lemma NewShader_equiv (MR1 MR2 : MapRange) f1 f2 :
  res_equiv (@parse _ MR1 f1 Shader_zero) (@parse _ MR2 f2 Shader_zero) →
  same_outcome (@NewShader _ MR1 _ (inl f1)) (@NewShader _ MR2 _ (inl f2)).
Proof.
  intros He. unfold NewShader, res_map.
  destruct (parse f1 Shader_zero) as [s1|] eqn:Hs1,
    (parse f2 Shader_zero) as [s2|]; simpl in *; try done.
  unfold NewShader_result.
  pose proof He as (Hp & Hv & Hu & Hg & Herr).
  assert (length (errs s1) = length (errs s2)) as Hlen by (by rewrite Herr).
  rewrite <- Hlen. destruct (decide (0 < length (errs s1))); simpl; [done|].
  split.
  - unfold sort_groups; repeat split; simpl; rewrite ?sort_Slice_perm; done.
  - intros Hd. apply (proj1 (sort_groups_distinct s1)) in Hd.
    apply sort_groups_equiv.
    + exact He.
    + exact Hd.
    + apply (parse_entries_uniforms_distinct _ _ (NoDup_range MR1 f1) Hs1).
    + destruct (errs s1); [done|simpl in *; lia].
Qed.

(** X7.  An object that is neither a constant nor a variable, under a name
    other than the reserved one (a function, a type, a label), plays no
    part: a source with one such object more has the same outcome, up to the
    order of the walk. *)
Theorem other_kinds_play_no_part (MR1 MR2 : MapRange) (f : File)
    (name : string) (obj : Object) :
  Scope_Objects f !! name = None →
  name ≠ varyingStructName →
  obj_Kind obj ≠ Con → obj_Kind obj ≠ Var →
  same_outcome
    (@NewShader _ MR1 _ (inl f))
    (@NewShader _ MR2 _
       (inl {| Scope_Objects := <[name := obj]> (Scope_Objects f) |})).
Proof.
  intros Hfresh Hv Hc Hvar. apply NewShader_equiv. unfold parse. simpl.
  assert (∀ s, parseObject (name, obj) s = Done s) as Hskip.
  { intros s. unfold parseObject. rewrite decide_False by done.
    by destruct (obj_Kind obj). }
  assert (range_order (MapRange := MR2) (<[name:=obj]> (Scope_Objects f))
          ≡ₚ (name, obj) :: range_order (MapRange := MR1) (Scope_Objects f))
    as Hperm.
  { rewrite !range_order_perm. by apply map_to_list_insert. }
  symmetry.
  etrans; [apply (parse_entries_perm _ _ Hperm); [|reflexivity]|].
  { rewrite range_order_perm. apply NoDup_fst_map_to_list. }
  simpl. pose proof (Hskip Shader_zero) as H0. unfold parseObject in H0.
  rewrite H0. simpl. reflexivity.
Qed.

End kinds.

Section reserved.
Context `{TS : TypeSystem}.

(** X8.  The object of the reserved name is never classified as a uniform
    or a global, whatever its kind: a variable or a constant of that name
    gets the diagnostic [<name> must be a type but <kind>], a type that is
    not a struct the diagnostic [<name> must be a struct but not], and
    nothing else changes; a struct changes the position, the varyings and
    the diagnostics only. *)
Theorem reserved_name_is_the_struct (obj : Object) (s s' : Shader) :
  parseObject (varyingStructName, obj) s = Done s' →
  uniforms s' = uniforms s ∧ globals s' = globals s
  ∧ (obj_Kind obj ≠ Typ →
       s' = addError (obj_Name obj +:+ " must be a type but "
                        +:+ ObjKind_String (obj_Kind obj)) s)
  ∧ (obj_Kind obj = Typ → (∀ fs, obj_Decl obj ≠ TypeSpec (StructType fs)) →
       s' = addError (obj_Name obj +:+ " must be a struct but not") s).
Proof.
  unfold parseObject. rewrite decide_True by done. unfold parseVaryingStruct.
  destruct (decide (obj_Kind obj ≠ Typ)) as [Hk|Hk].
  { intros [= <-]. by repeat split. }
  destruct (obj_Decl obj) as [t| |]; try done.
  destruct t as [| | |fs|]; intros [= <-];
    try (repeat split; try done; intros _ Hno).
  - repeat split; try apply fields_uniforms_globals; try done.
    intros _ Hno. by destruct (Hno fs).
Qed.

End reserved.

(** ** The texts: [ParseError.Error], [Dump], [GlslVertex] *)

Lemma string_app_nil_l (s : string) : "" +:+ s = s.
Proof. done. Qed.

Lemma string_app_cons a (s1 s2 : string) :
  String a s1 +:+ s2 = String a (s1 +:+ s2).
Proof. done. Qed.

Lemma has_newline_app (s1 s2 : string) :
  has_newline (s1 +:+ s2) = has_newline s1 || has_newline s2.
Proof.
  induction s1 as [|a s1 IH]; [done|].
  rewrite string_app_cons. simpl. by destruct (decide (a = "010"%char)).
Qed.

Lemma count_newlines_app (s1 s2 : string) :
  count_newlines (s1 +:+ s2) = count_newlines s1 + count_newlines s2.
Proof.
  induction s1 as [|a s1 IH]; [done|].
  rewrite string_app_cons. simpl. rewrite IH. lia.
Qed.

Lemma count_newlines_none (s : string) :
  has_newline s = false → count_newlines s = 0.
Proof.
  induction s as [|a s IH]; [done|]. simpl.
  destruct (decide (a = "010"%char)); [done|]. intros Hs. by rewrite IH.
Qed.

Lemma Join_cons e e' rest sep :
  Join (e :: e' :: rest) sep = e +:+ sep +:+ Join (e' :: rest) sep.
Proof. done. Qed.

Lemma count_newlines_Join (lines : list string) :
  Forall (λ e, has_newline e = false) lines →
  count_newlines (Join lines newline) = pred (length lines).
Proof.
  induction 1 as [|e rest He Hrest IH]; [done|].
  destruct rest as [|e' rest].
  { simpl. by apply count_newlines_none. }
  rewrite Join_cons, !count_newlines_app, IH, (count_newlines_none e He).
  simpl. done.
Qed.

Lemma newline_app (r : string) : newline +:+ r = String "010" r.
Proof. done. Qed.

Lemma line_split (e1 e2 r1 r2 : string) :
  has_newline e1 = false → has_newline e2 = false →
  e1 +:+ newline +:+ r1 = e2 +:+ newline +:+ r2 → e1 = e2 ∧ r1 = r2.
Proof.
  revert e2. induction e1 as [|a e1 IH]; intros [|b e2]; simpl;
    rewrite ?string_app_cons, ?string_app_nil_l.
  - intros _ _ Heq. rewrite !newline_app in Heq. by simplify_eq.
  - destruct (decide (b = "010"%char)); [done|]. intros _ _ Heq.
    rewrite (newline_app r1) in Heq. by simplify_eq.
  - destruct (decide (a = "010"%char)); [done|]. intros _ _ Heq.
    rewrite (newline_app r2) in Heq. by simplify_eq.
  - destruct (decide (a = "010"%char)); [done|].
    destruct (decide (b = "010"%char)); [done|].
    intros H1 H2 [= -> Heq]. by destruct (IH _ H1 H2 Heq) as [-> ->].
Qed.

Lemma Join_injective (l1 l2 : list string) :
  l1 ≠ [] → l2 ≠ [] →
  Forall (λ e, has_newline e = false) l1 →
  Forall (λ e, has_newline e = false) l2 →
  Join l1 newline = Join l2 newline → l1 = l2.
Proof.
  intros Hne1 Hne2 H1. revert l2 Hne2 Hne1.
  induction H1 as [|e1 r1 He1 Hr1 IH]; intros l2 Hne2 Hne1 H2 Heq; [done|].
  destruct H2 as [|e2 r2 He2 Hr2]; [done|].
  destruct r1 as [|e1' r1], r2 as [|e2' r2].
  - simpl in Heq. by subst.
  - rewrite Join_cons in Heq. simpl in Heq.
    apply (f_equal has_newline) in Heq.
    rewrite He1, !has_newline_app in Heq. simpl in Heq.
    by rewrite orb_true_r in Heq.
  - rewrite Join_cons in Heq. simpl in Heq.
    apply (f_equal has_newline) in Heq.
    rewrite He2, !has_newline_app in Heq. simpl in Heq.
    by rewrite orb_true_r in Heq.
  - rewrite !Join_cons in Heq.
    destruct (line_split _ _ _ _ He1 He2 Heq) as [-> Hrest].
    f_equal. by apply IH.
Qed.

Section texts.
Context `{TS : TypeSystem}.

(** X10.  The text of a [ParseError] tells its diagnostics apart: when no
    diagnostic holds a line feed, the text of a non-empty [ParseError] has one
    line feed less than it has diagnostics, and two such errors with the same
    text hold the same diagnostics in the same order. *)
Theorem ParseError_Error_tells_apart (p1 p2 : ParseError) :
  pe_errs p1 ≠ [] → pe_errs p2 ≠ [] →
  Forall (λ e, has_newline e = false) (pe_errs p1) →
  Forall (λ e, has_newline e = false) (pe_errs p2) →
  S (count_newlines (ParseError_Error p1)) = length (pe_errs p1)
  ∧ (ParseError_Error p1 = ParseError_Error p2 → p1 = p2).
Proof.
  intros Hne1 Hne2 H1 H2. unfold ParseError_Error. split.
  - rewrite count_newlines_Join by done.
    destruct (pe_errs p1); [done|simpl; lia].
  - intros Heq. destruct p1 as [l1], p2 as [l2]. simpl in *. f_equal.
    by apply Join_injective.
Qed.

Lemma one_line_dump_lines s :
  one_line_variable (position s) →
  Forall one_line_variable (varyings s) →
  Forall one_line_variable (uniforms s) →
  Forall one_line_variable (globals s) →
  Forall (λ e, has_newline e = false) (Dump_lines s).
Proof.
  intros (Hn & Ht & _) Hv Hu Hg. unfold Dump_lines.
  rewrite !Forall_app, !Forall_fmap. repeat split.
  - repeat constructor. rewrite !has_newline_app, Hn, Ht. done.
  - eapply Forall_impl; [exact Hv|]. intros v (Hvn & Hvt & _). simpl.
    rewrite !has_newline_app, Hvn, Hvt. done.
  - eapply Forall_impl; [exact Hu|]. intros v (Hvn & Hvt & _). simpl.
    rewrite !has_newline_app, Hvn, Hvt. done.
  - eapply Forall_impl; [exact Hg|]. intros v (Hvn & Hvt & Hvi). simpl.
    unfold Dump_global. rewrite !has_newline_app, Hvn, Hvt.
    destruct (var_constant v), (decide (var_init v ≠ ""));
      rewrite ?has_newline_app, ?Hvi; done.
Qed.

(** X11.  When no name, no name of a type and no initializer holds a line
    feed, the dump has exactly one line feed for the position and one for
    each varying, uniform and global: every variable is on a line of its
    own, and the last character of the dump is a line feed. *)
Theorem Dump_one_line_each (s : Shader) :
  one_line_variable (position s) →
  Forall one_line_variable (varyings s) →
  Forall one_line_variable (uniforms s) →
  Forall one_line_variable (globals s) →
  count_newlines (Dump s)
  = 1 + length (varyings s) + length (uniforms s) + length (globals s)
  ∧ ∃ body, Dump s = body +:+ newline ∧ count_newlines body
            = length (varyings s) + length (uniforms s) + length (globals s).
Proof.
  intros Hp Hv Hu Hg.
  pose proof (one_line_dump_lines s Hp Hv Hu Hg) as Hlines.
  assert (count_newlines (Join (Dump_lines s) newline)
          = length (varyings s) + length (uniforms s) + length (globals s))
    as Hbody.
  { rewrite count_newlines_Join by done. unfold Dump_lines.
    rewrite !length_app, !length_fmap. simpl. lia. }
  unfold Dump. split.
  - rewrite count_newlines_app, Hbody. simpl. lia.
  - by eexists.
Qed.

Context `{GS : !GlslSpelling}.

(** X12.  [GlslVertex] has one line for each varying of the model and takes
    nothing else from it; for a model without varyings it is not empty but
    one line feed.  When no name and no spelling of a type holds a line feed,
    it has as many line feeds as varyings, and one if there is none. *)
Theorem GlslVertex_lines (s : Shader) :
  Forall one_line_glsl (varyings s) →
  count_newlines (GlslVertex s) = max 1 (length (varyings s))
  ∧ (varyings s = [] → GlslVertex s = newline)
  ∧ (∀ s2, varyings s2 = varyings s → GlslVertex s2 = GlslVertex s).
Proof.
  intros Hv. unfold GlslVertex. split; [|split].
  - rewrite count_newlines_app, count_newlines_Join.
    + rewrite length_fmap. simpl. lia.
    + rewrite Forall_fmap. eapply Forall_impl; [exact Hv|].
      intros v [Hn Ht]. simpl. rewrite !has_newline_app, Hn, Ht. done.
  - by intros ->.
  - by intros s2 ->.
Qed.

End texts.

(** X13.  The tag of a field is recognised exactly when it is a backquote,
    [kage:], a double quote, a value, a double quote and a backquote, the
    value not empty and without a line feed; the value is then what is
    captured.  Any other text is rejected. *)
Theorem kageTagRe_accepts_exactly (tag : string) :
  (∀ v, kageTagRe tag = Some v
        ↔ tag = kageTag_open +:+ v +:+ kageTag_close ∧ v ≠ ""
          ∧ has_newline v = false)
  ∧ (kageTagRe tag = None
     ↔ ∀ v, tag = kageTag_open +:+ v +:+ kageTag_close →
            v = "" ∨ has_newline v = true).
Proof.
  split; [intros v; apply kageTagRe_grammar|]. split.
  - intros Hnone v Htag.
    destruct (decide (v = "")) as [|Hv]; [by left|]. right.
    destruct (has_newline v) eqn:Hn; [done|].
    rewrite (proj2 (kageTagRe_grammar tag v)) in Hnone; done.
  - intros Hall. destruct (kageTagRe tag) as [v|] eqn:Hre; [|done].
    apply kageTagRe_grammar in Hre as (Htag & Hv & Hn).
    destruct (Hall v Htag); congruence.
Qed.

(** ** How many diagnostics *)

Section counting.
Context `{TS : TypeSystem}.

Lemma field_errs_le fld :
  length (errs (parseVaryingField fld Shader_zero)) ≤ 1.
Proof.
  unfold parseVaryingField.
  repeat case_match; rewrite ?append_varyings_foldl; simpl; lia.
Qed.

Lemma constantValues_errs_le name t names values i s s' :
  constantValues name t names i values s = Done s' →
  length (errs s') ≤ S (length (errs s)).
Proof.
  revert i s. induction values as [|v rest IH]; intros i s; simpl.
  { intros [= <-]. lia. }
  destruct (names !! i) as [n|]; [|done].
  destruct (decide (n ≠ name)); [apply IH|].
  destruct v as [| |b| |]; try (intros Hs; by apply IH in Hs).
  destruct (decide _).
  - intros [= <-]. simpl. rewrite length_app. simpl. lia.
  - intros Hs. by apply IH in Hs.
Qed.

Lemma entry_errs_le name obj :
  length (entry_errs (name, obj))
  ≤ 1 + length (if decide (name = varyingStructName)
                then object_fields obj else []).
Proof.
  unfold entry_errs, parseObject.
  destruct (decide (name = varyingStructName)) as [Hv|Hv].
  - unfold parseVaryingStruct, object_fields.
    destruct (decide (obj_Kind obj ≠ Typ)) as [Hk|Hk%dec_stable];
      [simpl; lia|].
    rewrite Hk. destruct (obj_Decl obj) as [t| |]; simpl; try lia.
    destruct t as [| | |fs|]; simpl; try lia.
    rewrite fields_errs. simpl.
    induction fs as [|fld fs IH]; csimpl; [lia|].
    rewrite length_app. pose proof (field_errs_le fld). lia.
  - destruct (obj_Kind obj); simpl; try lia.
    + unfold parsePackageLevelConstant.
      destruct (obj_Decl obj) as [|vs|]; simpl; try lia.
      destruct (parseType _); simpl; [|lia].
      destruct (constantValues _ _ _ _ _ _) as [d|] eqn:Hd; simpl; [|lia].
      apply constantValues_errs_le in Hd. simpl in Hd. lia.
    + unfold parsePackageLevelVariable.
      destruct (obj_Decl obj) as [|vs|]; simpl; try lia.
      destruct (parseType _); simpl; [|lia].
      destruct name; simpl; [lia|]. destruct (_ && _); simpl; lia.
Qed.

Lemma entries_errs_le (l : list (string * Object)) :
  length (l ≫= entry_errs)
  ≤ length l
    + length (l ≫= λ e, if decide (e.1 = varyingStructName)
                        then object_fields e.2 else []).
Proof.
  induction l as [|[name obj] l IH]; csimpl; [lia|].
  rewrite !length_app. pose proof (entry_errs_le name obj). simpl. lia.
Qed.

Lemma struct_fields_of_range `{MR : MapRange} (f : File) :
  length (range_order (Scope_Objects f)
            ≫= λ e, if decide (e.1 = varyingStructName)
                    then object_fields e.2 else [])
  = length (struct_fields f).
Proof.
  rewrite range_order_perm. unfold struct_fields.
  assert (∀ m : gmap string Object, m !! varyingStructName = None →
            map_to_list m ≫= (λ e, if decide (e.1 = varyingStructName)
                                   then object_fields e.2 else []) = [])
    as Hnone.
  { intros m Hm. apply bind_nil, Forall_forall. intros [name obj] Hin.
    apply elem_of_map_to_list in Hin. simpl.
    rewrite decide_False; [done|]. intros ->. congruence. }
  destruct (Scope_Objects f !! varyingStructName) as [obj|] eqn:Hin.
  - rewrite <- (map_to_list_delete _ _ _ Hin). csimpl.
    rewrite Hnone by apply lookup_delete_eq. by rewrite app_nil_r.
  - by rewrite Hnone.
Qed.

(** X9.  A [ParseError] that [NewShader] returns holds at least one
    diagnostic and at most one for each object of the map and one for each
    field of the struct: a field, a variable and a constant each stop at
    their first diagnostic. *)
Theorem diagnostics_bounded `{MR : MapRange} `{SS : SliceSort} (f : File)
    (p : ParseError) :
  NewShader (inl f) = Done (inr (SemanticError p)) →
  0 < length (pe_errs p)
  ∧ length (pe_errs p) ≤ size (Scope_Objects f) + length (struct_fields f).
Proof.
  unfold NewShader, res_map, NewShader_result.
  destruct (parse f Shader_zero) as [s|] eqn:Hs; simpl; [|done].
  destruct (decide (0 < length (errs s))) as [Hlen|]; [|done].
  intros [= <-]. simpl. split; [done|].
  unfold parse in Hs. rewrite (parse_entries_errs _ _ _ Hs). simpl.
  etrans; [apply entries_errs_le|].
  rewrite struct_fields_of_range.
  assert (length (range_order (Scope_Objects f)) = size (Scope_Objects f))
    as ->; [|done].
  by rewrite range_order_perm, length_map_to_list.
Qed.

End counting.

(** ** The properties above on concrete sources *)

Section more_concrete.
Import kage samples.

Abbreviation run_forward := (NewShader (MR := range_forward)).
Abbreviation run_backward := (NewShader (MR := range_backward)).

Lemma varyings_of_model_witness :
  plain_variable "Texcoord" Vec2 ∈ varyings scenario_model
  ↔ ∃ fld n t, fld ∈ struct_fields scenario ∧ Tag fld = None ∧ n ∈ Names fld
               ∧ parseType (Type_ fld) = inl t ∧ numeric t = true
               ∧ plain_variable "Texcoord" Vec2 = plain_variable n t.
Proof.
  apply (varyings_of_model (MR := range_forward) scenario scenario_model).
  vm_compute. reflexivity.
Defined.

Lemma uniforms_of_model_witness :
  (plain_variable "Tex" Vec2 ∈ uniforms scenario_model
   ↔ ∃ name obj vs t c tail,
       Scope_Objects scenario !! name = Some obj
       ∧ name ≠ varyingStructName ∧ obj_Kind obj = Var
       ∧ obj_Decl obj = ValueSpecDecl vs ∧ parseType (vs_Type vs) = inl t
       ∧ name = String c tail ∧ c ∈ upper_letters
       ∧ plain_variable "Tex" Vec2 = plain_variable name t)
  ∧ NoDup (var_name <$> uniforms scenario_model).
Proof.
  apply (uniforms_of_model (MR := range_forward) scenario scenario_model).
  vm_compute. reflexivity.
Defined.

Lemma globals_of_model_witness :
  constant_of "Scale" Float "2.0" ∈ globals scenario_model
  ↔ ∃ name obj vs t,
      Scope_Objects scenario !! name = Some obj
      ∧ name ≠ varyingStructName
      ∧ obj_Decl obj = ValueSpecDecl vs ∧ parseType (vs_Type vs) = inl t
      ∧ ((obj_Kind obj = Var
          ∧ ∃ c tail, name = String c tail ∧ (c ∉ upper_letters)
                      ∧ constant_of "Scale" Float "2.0" = plain_variable name t)
         ∨ (obj_Kind obj = Con
            ∧ ∃ k e, vs_Names vs !! k = Some name
                     ∧ vs_Values vs !! k = Some e
                     ∧ constant_of "Scale" Float "2.0"
                       = constant_of name t (init_of e))).
Proof.
  apply (globals_of_model (MR := range_forward) scenario scenario_model).
  vm_compute. reflexivity.
Defined.

Lemma other_kinds_play_no_part_witness :
  same_outcome
    (run_forward (inl scenario))
    (run_backward
       (inl {| Scope_Objects := <["Foo" := function_Foo]> (Scope_Objects scenario) |})).
Proof.
  apply (other_kinds_play_no_part range_forward range_backward scenario
           "Foo" function_Foo).
  - vm_compute. reflexivity.
  - intros [=].
  - intros [=].
  - intros [=].
Defined.

Lemma reserved_name_is_the_struct_witness :
  uniforms (addError "VertexOut must be a type but var" Shader_zero)
  = uniforms Shader_zero
  ∧ globals (addError "VertexOut must be a type but var" Shader_zero)
    = globals Shader_zero
  ∧ (obj_Kind variable_VertexOut ≠ Typ →
       addError "VertexOut must be a type but var" Shader_zero
       = addError (obj_Name variable_VertexOut +:+ " must be a type but "
                     +:+ ObjKind_String (obj_Kind variable_VertexOut))
           Shader_zero)
  ∧ (obj_Kind variable_VertexOut = Typ →
     (∀ fs, obj_Decl variable_VertexOut ≠ TypeSpec (StructType fs)) →
       addError "VertexOut must be a type but var" Shader_zero
       = addError (obj_Name variable_VertexOut +:+ " must be a struct but not")
           Shader_zero).
Proof.
  apply (reserved_name_is_the_struct (TS := type_system) variable_VertexOut
           Shader_zero (addError "VertexOut must be a type but var" Shader_zero)).
  vm_compute. reflexivity.
Defined.

Lemma ParseError_Error_tells_apart_witness :
  S (count_newlines (ParseError_Error foo_then_bar))
  = length (pe_errs foo_then_bar)
  ∧ (ParseError_Error foo_then_bar = ParseError_Error bar_then_foo →
     foo_then_bar = bar_then_foo).
Proof.
  apply (ParseError_Error_tells_apart foo_then_bar bar_then_foo).
  - intros [=].
  - intros [=].
  - repeat constructor.
  - repeat constructor.
Defined.

Lemma Dump_one_line_each_witness :
  count_newlines (Dump scenario_model)
  = 1 + length (varyings scenario_model) + length (uniforms scenario_model)
    + length (globals scenario_model)
  ∧ ∃ body, Dump scenario_model = body +:+ newline
            ∧ count_newlines body
              = length (varyings scenario_model)
                + length (uniforms scenario_model)
                + length (globals scenario_model).
Proof.
  apply (Dump_one_line_each (TS := type_system) scenario_model).
  - repeat split.
  - repeat constructor.
  - repeat constructor.
  - repeat constructor.
Defined.

Lemma GlslVertex_lines_witness :
  count_newlines (GlslVertex scenario_model)
  = max 1 (length (varyings scenario_model))
  ∧ (varyings scenario_model = [] → GlslVertex scenario_model = newline)
  ∧ (∀ s2, varyings s2 = varyings scenario_model →
           GlslVertex s2 = GlslVertex scenario_model).
Proof.
  apply (GlslVertex_lines (GS := kage_glsl) scenario_model).
  repeat constructor.
Defined.

Lemma diagnostics_bounded_witness :
  0 < length (pe_errs foo_then_bar)
  ∧ length (pe_errs foo_then_bar)
    ≤ size (Scope_Objects two_unknown_types)
      + length (struct_fields two_unknown_types).
Proof.
  apply (diagnostics_bounded (MR := range_forward) two_unknown_types
           foo_then_bar).
  vm_compute. reflexivity.
Defined.

End more_concrete.
